(** * Documentation search of support-mcp (tools/docs_rag.py)

    A shallow embedding of the paragraph scorer, the corpus aggregator, the
    document scanner and the list / answer tools, and the properties the
    specification states about them.

    Python values are modelled as follows: a [str] is the list of its code
    points, an [int] is a [Z], a list is a [list], the snippet dictionaries
    are records, the structured payloads are JSON-like trees, and a call
    that can raise returns a [result]. *)

From Stdlib Require Import ZArith NArith Strings.Byte DecimalString Lia.
From stdpp Require Import base tactics option list sorting strings gmap.

(** ** Python strings, bytes and the services of the runtime *)

Module Py.

(** A [str] is a sequence of code points. *)
Abbreviation pystr := (list N).

Inductive exn :=
| OSError
| UnicodeDecodeError
| ValueError
| McpError (code : Z) (message : pystr).

Inductive result (A : Type) :=
| Ok (a : A)
| Raise (e : exn).
Arguments Ok {A} a.
Arguments Raise {A} e.

(** Sequencing: an exception raised by the first call ends the block. *)
#[global] Instance result_ret : MRet result := fun A a => Ok a.
#[global] Instance result_bind : MBind result := fun A B k r =>
  match r with
  | Ok a => k a
  | Raise e => Raise e
  end.

(** *** The UTF-8 codec

    [utf8_step_at] reads one sequence at the head of the input: a scalar
    value and its width, or a malformed sequence and the number of bytes
    the error covers (an invalid start byte covers one byte, an invalid
    continuation byte covers the bytes read before it, a sequence cut by
    the end of the data covers what remains). *)

Inductive error_mode := Strict | Ignore.

Inductive utf8_step :=
| Scalar (cp : N) (width : nat)
| Malformed (width : nat).

Definition is_continuation (b : N) : bool := (0x80 <=? b)%N && (b <=? 0xBF)%N.

Definition low6 (b : N) : N := N.land b 0x3F.

Definition utf8_step_at (bs : list N) : utf8_step :=
  match bs with
  | [] => Malformed 0
  | b0 :: bs1 =>
    if (b0 <? 0x80)%N then Scalar b0 1
    else if (b0 <? 0xC2)%N then Malformed 1
    else if (b0 <? 0xE0)%N then
      match bs1 with
      | [] => Malformed 1
      | b1 :: _ =>
        if is_continuation b1
        then Scalar (N.lor (N.shiftl (N.land b0 0x1F) 6) (low6 b1)) 2
        else Malformed 1
      end
    else if (b0 <? 0xF0)%N then
      match bs1 with
      | [] => Malformed 1
      | b1 :: bs2 =>
        if negb (is_continuation b1)
           || (if (b1 <? 0xA0)%N then (b0 =? 0xE0)%N else (b0 =? 0xED)%N)
        then Malformed 1
        else
          match bs2 with
          | [] => Malformed 2
          | b2 :: _ =>
            if is_continuation b2
            then Scalar (N.lor (N.shiftl (N.land b0 0x0F) 12)
                          (N.lor (N.shiftl (low6 b1) 6) (low6 b2))) 3
            else Malformed 2
          end
      end
    else if (b0 <? 0xF5)%N then
      match bs1 with
      | [] => Malformed 1
      | b1 :: bs2 =>
        if negb (is_continuation b1)
           || (if (b1 <? 0x90)%N then (b0 =? 0xF0)%N else (b0 =? 0xF4)%N)
        then Malformed 1
        else
          match bs2 with
          | [] => Malformed 2
          | b2 :: bs3 =>
            if negb (is_continuation b2) then Malformed 2
            else
              match bs3 with
              | [] => Malformed 3
              | b3 :: _ =>
                if is_continuation b3
                then Scalar (N.lor (N.shiftl (N.land b0 0x07) 18)
                              (N.lor (N.shiftl (low6 b1) 12)
                                (N.lor (N.shiftl (low6 b2) 6) (low6 b3)))) 4
                else Malformed 3
              end
          end
      end
    else Malformed 1
  end.

(** The scan of a byte string: one item per sequence, [None] for a
    malformed one. [skip] counts the bytes of the current sequence that
    are still to be passed over. *)
Fixpoint utf8_scan (skip : nat) (bs : list N) : list (option N) :=
  match bs with
  | [] => []
  | _ :: rest =>
    match skip with
    | S k => utf8_scan k rest
    | O =>
      match utf8_step_at bs with
      | Scalar cp w => Some cp :: utf8_scan (w - 1) rest
      | Malformed w => None :: utf8_scan (w - 1) rest
      end
    end
  end.

(** [bytes.decode("utf-8", errors)]: [Strict] raises on the first
    malformed sequence, [Ignore] drops malformed sequences. *)
Definition utf8_decode (errors : error_mode) (data : list byte) : result pystr :=
  let items := utf8_scan 0 (map Byte.to_N data) in
  match errors with
  | Strict =>
    if forallb (fun i => bool_decide (is_Some i)) items
    then Ok (omap id items)
    else Raise UnicodeDecodeError
  | Ignore => Ok (omap id items)
  end.

(** Text mode reads with universal newlines: CR LF and a lone CR become LF. *)
Fixpoint universal_newlines (s : pystr) : pystr :=
  match s with
  | [] => []
  | c :: t =>
    if (c =? 13)%N then
      match t with
      | c' :: t' =>
        if (c' =? 10)%N then 10%N :: universal_newlines t'
        else 10%N :: universal_newlines t
      | [] => [10%N]
      end
    else c :: universal_newlines t
  end.

(** A literal of the source text, as the [str] it denotes. *)
Definition py (s : string) : pystr :=
  omap id (utf8_scan 0 (map Byte.to_N (String.list_byte_of_string s))).

(** *** Operations on [str] that need no character table *)

Definition len (s : pystr) : Z := Z.of_nat (length s).

Fixpoint startswith (sub s : pystr) : bool :=
  match sub, s with
  | [], _ => true
  | _ :: _, [] => false
  | a :: sub', b :: s' => (a =? b)%N && startswith sub' s'
  end.

(** [str.count]: occurrences found scanning from the left, the scan
    resuming after the end of each occurrence found. *)
Fixpoint count_from (skip : nat) (s sub : pystr) : nat :=
  match s with
  | [] => 0
  | _ :: t =>
    match skip with
    | S k => count_from k t sub
    | O =>
      if startswith sub s then S (count_from (length sub - 1) t sub)
      else count_from 0 t sub
    end
  end.

Definition count (s sub : pystr) : Z :=
  match sub with
  | [] => len s + 1
  | _ :: _ => Z.of_nat (count_from 0 s sub)
  end.

(** [sep.join(parts)] *)
Fixpoint join (sep : pystr) (parts : list pystr) : pystr :=
  match parts with
  | [] => []
  | [p] => p
  | p :: ps => p ++ sep ++ join sep ps
  end.

(** [str(n)] for an [int]. *)
Definition str_int (n : Z) : pystr :=
  py (NilEmpty.string_of_int (Z.to_int n)).

(** [l[:n]]: a negative bound counts from the end. *)
Definition slice_to {A} (l : list A) (n : Z) : list A :=
  if (0 <=? n)%Z then take (Z.to_nat n) l
  else take (length l - Z.to_nat (- n)) l.

(** [sum(...)] of a list of [int]. *)
Definition sum (l : list Z) : Z := foldr Z.add 0%Z l.

(** [l.sort(key=key, reverse=True)]: the stable sort into descending
    order of the key; elements with equal keys keep their order. *)
Fixpoint insert_desc {A} (key : A -> Z) (x : A) (l : list A) : list A :=
  match l with
  | [] => [x]
  | y :: l' =>
    if (key x <? key y)%Z then y :: insert_desc key x l'
    else x :: l
  end.

Definition sort_reverse {A} (key : A -> Z) (l : list A) : list A :=
  foldr (insert_desc key) [] l.

(** *** Character tables

    Whitespace, alphanumeric class, lower-casing and [repr] come from the
    Unicode tables of the interpreter; the development is parametric in
    them. *)
Class Runtime := {
  isspace : N -> bool;
  isalnum : N -> bool;
  lower : pystr -> pystr;
  repr : pystr -> pystr;
  exc_str : exn -> pystr
}.

Section Text.
Context `{Runtime}.

(** [\w]: alphanumeric or underscore. *)
Definition is_word (c : N) : bool := isalnum c || (c =? 95)%N.

Definition flush (acc : pystr) : list pystr :=
  match acc with
  | [] => []
  | _ :: _ => [acc]
  end.

(** [re.findall(r"\w+", s)]: the maximal runs of word characters. *)
Fixpoint findall_word_from (acc : pystr) (s : pystr) : list pystr :=
  match s with
  | [] => flush acc
  | c :: t =>
    if is_word c then findall_word_from (acc ++ [c]) t
    else flush acc ++ findall_word_from [] t
  end.

Definition re_findall_word (s : pystr) : list pystr := findall_word_from [] s.

(** After the first newline of [\n\s*\n]: the number of characters that
    [\s*\n] matches, the star being greedy and giving back characters
    until a newline follows. *)
Fixpoint blank_tail (s : pystr) : option nat :=
  match s with
  | [] => None
  | c :: t =>
    match (if isspace c then blank_tail t else None) with
    | Some k => Some (S k)
    | None => if (c =? 10)%N then Some 1 else None
    end
  end.

(** [re.split(r"\n\s*\n", s)] *)
Fixpoint split_blank_from (skip : nat) (cur : pystr) (s : pystr) : list pystr :=
  match s with
  | [] => [cur]
  | c :: t =>
    match skip with
    | S k => split_blank_from k cur t
    | O =>
      match (if (c =? 10)%N then blank_tail t else None) with
      | Some k => cur :: split_blank_from k [] t
      | None => split_blank_from 0 (cur ++ [c]) t
      end
    end
  end.

Definition re_split_blank (s : pystr) : list pystr := split_blank_from 0 [] s.

Fixpoint lstrip (s : pystr) : pystr :=
  match s with
  | [] => []
  | c :: t => if isspace c then lstrip t else s
  end.

Definition rstrip (s : pystr) : pystr := reverse (lstrip (reverse s)).

Definition strip (s : pystr) : pystr := rstrip (lstrip s).

End Text.

(** *** The tables on the ASCII range

    On code points below 128 these agree with the interpreter; above,
    nothing is a space or alphanumeric and nothing changes case. *)

Definition ascii_isspace (c : N) : bool :=
  ((9 <=? c) && (c <=? 13) || (28 <=? c) && (c <=? 32))%N.

Definition ascii_isalnum (c : N) : bool :=
  ((48 <=? c) && (c <=? 57) || (65 <=? c) && (c <=? 90)
   || (97 <=? c) && (c <=? 122))%N.

Definition ascii_lower_char (c : N) : N :=
  if ((65 <=? c) && (c <=? 90))%N then (c + 32)%N else c.

Definition hex_digit (d : N) : N :=
  if (d <? 10)%N then (48 + d)%N else (87 + d)%N.

Definition ascii_repr_char (quote : N) (c : N) : pystr :=
  if (c =? 92)%N then [92; 92]%N
  else if (c =? quote)%N then [92; c]%N
  else if (c =? 10)%N then [92; 110]%N
  else if (c =? 13)%N then [92; 114]%N
  else if (c =? 9)%N then [92; 116]%N
  else if ((c <? 32) || (c =? 127))%N
       then [92; 120; hex_digit (c / 16); hex_digit (c mod 16)]%N
  else [c].

Definition ascii_repr (s : pystr) : pystr :=
  let quote :=
    if bool_decide (39%N ∈ s) && negb (bool_decide (34%N ∈ s)) then 34%N else 39%N in
  quote :: concat (map (ascii_repr_char quote) s) ++ [quote].

Definition ascii_exc_str (e : exn) : pystr :=
  match e with
  | OSError => py "OSError"
  | UnicodeDecodeError => py "UnicodeDecodeError"
  | ValueError => py "ValueError"
  | McpError _ message => message
  end.

Definition ascii_runtime : Runtime := {|
  isspace := ascii_isspace;
  isalnum := ascii_isalnum;
  lower := map ascii_lower_char;
  repr := ascii_repr;
  exc_str := ascii_exc_str
|}.

End Py.

(** ** Paths and the file system (POSIX) *)

Module Fs.
Import Py.

(** The file system is a tree of directories and regular files. Symbolic
    links are not part of it and every directory can be searched, so
    that [exists], [is_dir] and [is_file] answer without raising and the
    walk enters every directory. What is stated of the scan is stated of
    such trees. *)

(** A resolved absolute path: its components below the root [/]. *)
Abbreviation Path := (list pystr).

(** What opening and reading a regular file gives: an OS-level failure
    (permission, I/O error) or its bytes. *)
Inductive FileData :=
| Unreadable
| Contents (data : list byte).

#[warnings="-register-all"]
Inductive Node :=
| File (d : FileData)
| Dir (entries : list (pystr * Node)).

(** Induction over a tree, with the hypothesis for every entry of a
    directory. *)
Section NodeInduction.
Variable P : Node -> Prop.
Hypothesis file_case : forall d, P (File d).
Hypothesis dir_case :
  forall entries, Forall (fun e => P e.2) entries -> P (Dir entries).

Fixpoint Node_tree_ind (n : Node) : P n :=
  match n with
  | File d => file_case d
  | Dir entries =>
    dir_case entries
      ((fix all (es : list (pystr * Node)) : Forall (fun e => P e.2) es :=
          match es with
          | [] => List.Forall_nil _
          | e :: es' => List.Forall_cons _ e es' (Node_tree_ind e.2) (all es')
          end) entries)
  end.
End NodeInduction.

(** What the process sees: the environment variable, path resolution
    (which depends on the working directory) and the directory tree.
    The order of [entries] is the order in which the directory is listed. *)
Record World := {
  environ_DOCS_DIR : option pystr;
  resolve : pystr -> Path;
  root : Node
}.

Definition slash : pystr := [47%N].

(** [str(p)] for an absolute path. *)
Definition str_path (p : Path) : pystr :=
  match p with
  | [] => slash
  | _ :: _ => concat (map (fun c => slash ++ c) p)
  end.

(** [str(p)] for a relative path. *)
Definition str_rel (p : list pystr) : pystr :=
  match p with
  | [] => [46%N]
  | _ :: _ => join slash p
  end.

Fixpoint find_entry (name : pystr) (entries : list (pystr * Node)) : option Node :=
  match entries with
  | [] => None
  | (n, node) :: rest =>
    if bool_decide (n = name) then Some node else find_entry name rest
  end.

Fixpoint lookup_from (n : Node) (p : Path) : option Node :=
  match p with
  | [] => Some n
  | c :: p' =>
    match n with
    | File _ => None
    | Dir entries =>
      match find_entry c entries with
      | Some child => lookup_from child p'
      | None => None
      end
    end
  end.

Definition lookup (w : World) (p : Path) : option Node := lookup_from (root w) p.

Definition path_exists (w : World) (p : Path) : bool :=
  match lookup w p with
  | Some _ => true
  | None => false
  end.

Definition is_dir (w : World) (p : Path) : bool :=
  match lookup w p with
  | Some (Dir _) => true
  | _ => false
  end.

Definition is_file (w : World) (p : Path) : bool :=
  match lookup w p with
  | Some (File _) => true
  | _ => false
  end.

(** The walk of [rglob("*")] below a directory: the entries of the
    directory itself, then the walk of each subdirectory in turn. *)
Fixpoint walk (base : Path) (n : Node) : list Path :=
  match n with
  | File _ => []
  | Dir entries =>
    map (fun e => base ++ [e.1]) entries ++
    (fix below (es : list (pystr * Node)) : list Path :=
       match es with
       | [] => []
       | e :: es' => walk (base ++ [e.1]) e.2 ++ below es'
       end) entries
  end.

Definition rglob (w : World) (base : Path) : list Path :=
  match lookup w base with
  | Some n => walk base n
  | None => []
  end.

(** [name.rfind(".")] *)
Fixpoint rfind_dot (name : pystr) : option nat :=
  match name with
  | [] => None
  | c :: t =>
    match rfind_dot t with
    | Some i => Some (S i)
    | None => if (c =? 46)%N then Some 0 else None
    end
  end.

(** [p.suffix]: the last dot of the final component and what follows,
    unless that dot opens or closes the name. *)
Definition suffix (p : Path) : pystr :=
  let name := default [] (last p) in
  match rfind_dot name with
  | Some i => if (0 <? i) && (i <? length name - 1) then drop i name else []
  | None => []
  end.

Fixpoint strip_prefix (base p : Path) : option (list pystr) :=
  match base, p with
  | [], _ => Some p
  | _ :: _, [] => None
  | b :: base', c :: p' =>
    if bool_decide (b = c) then strip_prefix base' p' else None
  end.

(** [p.relative_to(base)] raises [ValueError] when [p] is not below [base]. *)
Definition relative_to (p base : Path) : result (list pystr) :=
  match strip_prefix base p with
  | Some rel => Ok rel
  | None => Raise ValueError
  end.

(** [p.read_text(encoding="utf-8", errors=errors)] *)
Definition read_text (w : World) (p : Path) (errors : error_mode) : result pystr :=
  match lookup w p with
  | Some (File (Contents data)) =>
    text ← utf8_decode errors data; Ok (universal_newlines text)
  | Some (File Unreadable) => Raise OSError
  | Some (Dir _) => Raise OSError
  | None => Raise OSError
  end.

(** The resolution of ordinary path strings from a working directory:
    empty and [.] components are dropped, [..] steps up. *)
Fixpoint split_slash_from (cur : pystr) (s : pystr) : list pystr :=
  match s with
  | [] => [cur]
  | c :: t =>
    if (c =? 47)%N then cur :: split_slash_from [] t
    else split_slash_from (cur ++ [c]) t
  end.

Definition resolve_step (acc : Path) (c : pystr) : Path :=
  if bool_decide (c = []) || bool_decide (c = [46%N]) then acc
  else if bool_decide (c = [46%N; 46%N]) then take (length acc - 1) acc
  else acc ++ [c].

Definition posix_resolve (cwd : Path) (s : pystr) : Path :=
  let start := match s with
               | c :: _ => if (c =? 47)%N then [] else cwd
               | [] => cwd
               end in
  foldl resolve_step start (split_slash_from [] s).

End Fs.

(** ** tools/docs_rag.py *)

Module DocsRag.
Import Py Fs.

(** The snippet dictionaries [{"file": .., "score": .., "snippet": ..}]. *)
Record Snippet := {
  file : pystr;
  score : Z;
  snippet : pystr
}.

(** Structured payloads. *)
#[warnings="-register-all"]
Inductive Json :=
| JNone
| JStr (s : pystr)
| JInt (n : Z)
| JList (items : list Json)
| JDict (fields : list (string * Json)).

(** [ToolResult] of tools/utils.py; a [TextContent] block is its text. *)
Record ToolResult := {
  content : list pystr;
  structured_content : option (list (string * Json));
  meta : option (list (string * Json))
}.

(** What a tool sends through its request context while it runs. *)
Inductive CtxEvent :=
| CtxInfo (message : pystr)
| CtxProgress (progress total : Z)
| CtxError (message : pystr).

Definition nl : pystr := [10%N].

Definition snippet_json (s : Snippet) : Json :=
  JDict [("file"%string, JStr (file s));
         ("score"%string, JInt (score s));
         ("snippet"%string, JStr (snippet s))].

Section Tools.
Context `{Runtime}.

Definition _get_docs_dir (w : World) : Path :=
  let docs_dir := default (py "docs") (environ_DOCS_DIR w) in
  resolve w docs_dir.

Definition exts : list pystr := [py ".md"; py ".rst"; py ".txt"].

Definition _iter_doc_files (w : World) : list Path :=
  let base := _get_docs_dir w in
  if negb (path_exists w base) || negb (is_dir w base) then []
  else
    filter (fun path => is_file w path && bool_decide (lower (suffix path) ∈ exts))
           (rglob w base).

Definition _simple_score (text query : pystr) : Z :=
  let text_lower := lower text in
  let tokens := re_findall_word (lower query) in
  sum (map (fun tok => count text_lower tok) (filter (fun tok => tok ≠ []) tokens)).

(** The body of the loop over the paragraphs of a file: [None] where the
    loop moves on without appending. *)
Definition scan_paragraph (path : Path) (query : pystr) (para : pystr) : option Snippet :=
  let para_stripped := strip para in
  if bool_decide (para_stripped = []) then None
  else
    let score := _simple_score para_stripped query in
    if (score <=? 0)%Z then None
    else
      let para_stripped :=
        if (600 <? len para_stripped)%Z then take 600 para_stripped ++ py "..."
        else para_stripped in
      Some {| file := str_path path; score := score; snippet := para_stripped |}.

Definition _search_in_file (w : World) (path : Path) (query : pystr)
    (max_snippets : Z) : result (list Snippet) :=
  match read_text w path Ignore with
  | Raise OSError => Ok []
  | Raise e => Raise e
  | Ok content =>
    let raw_paragraphs := re_split_blank content in
    let snippets := omap (scan_paragraph path query) raw_paragraphs in
    let snippets := sort_reverse score snippets in
    Ok (slice_to snippets max_snippets)
  end.

(** The loop over the files, extending [all_snippets]. *)
Fixpoint extend_all (w : World) (query : pystr) (files : list Path)
    (all_snippets : list Snippet) : result (list Snippet) :=
  match files with
  | [] => Ok all_snippets
  | f :: files' =>
    snippets ← _search_in_file w f query 3;
    extend_all w query files' (all_snippets ++ snippets)
  end.

Definition _search_docs_internal (w : World) (query : pystr)
    (max_results : Z) : result (list Snippet) :=
  let files := _iter_doc_files w in
  all_snippets ← extend_all w query files [];
  let all_snippets := sort_reverse score all_snippets in
  Ok (slice_to all_snippets max_results).

(** The [except Exception] clause of the tools: report, then raise the
    protocol error. *)
Definition mcp_failure (log : list CtxEvent) (what : pystr) (e : exn)
    : list CtxEvent * result ToolResult :=
  (log ++ [CtxError (py "💥 " ++ what ++ py ": " ++ exc_str e)],
   Raise (McpError (-32603) (what ++ py ": " ++ exc_str e))).

Definition list_docs (w : World) : list CtxEvent * result ToolResult :=
  let body : result ToolResult :=
    let docs_dir := _get_docs_dir w in
    let files := _iter_doc_files w in
    text ←
      (if bool_decide (files = []) then
         Ok (py "Каталог документации не найден или пуст: " ++ str_path docs_dir ++ nl
             ++ py "Создайте папку docs/ и добавьте туда .md / .rst / .txt файлы.")
       else
         rels ← mapM (fun p => rel ← relative_to p docs_dir; Ok (str_rel rel)) files;
         let lines := py "Найдены файлы документации:" :: map (fun r => py "- " ++ r) rels in
         Ok (join nl lines));
    Ok {| content := [text];
          structured_content :=
            Some [("docs_dir"%string, JStr (str_path docs_dir));
                  ("files"%string, JList (map (fun p => JStr (str_path p)) files))];
          meta := None |} in
  match body with
  | Ok r => ([], Ok r)
  | Raise e => mcp_failure [] (py "Ошибка при перечислении документации") e
  end.

Definition search_docs (w : World) (query : pystr) (max_results : Z)
    : list CtxEvent * result ToolResult :=
  let log := [CtxInfo (py "🔎 Ищем по документации: " ++ repr query); CtxProgress 0 100] in
  match _search_docs_internal w query max_results with
  | Ok snippets =>
    let text :=
      if bool_decide (snippets = []) then
        py "По запросу " ++ repr query ++ py " ничего не найдено в документации."
      else
        let lines :=
          (py "Результаты поиска по запросу " ++ repr query ++ py ":")
          :: map (fun s => nl ++ py "📄 " ++ file s ++ py " (score=" ++ str_int (score s)
                           ++ py "):" ++ nl ++ snippet s) snippets in
        join nl lines in
    (log ++ [CtxProgress 100 100],
     Ok {| content := [text];
           structured_content := Some [("results"%string, JList (map snippet_json snippets))];
           meta := Some [("query"%string, JStr query)] |})
  | Raise e => mcp_failure log (py "Ошибка при поиске по документации") e
  end.

Definition answer_from_docs (w : World) (query : pystr) (max_context_fragments : Z)
    : list CtxEvent * result ToolResult :=
  let log := [CtxInfo (py "📘 Отвечаем на вопрос по документации: " ++ repr query);
              CtxProgress 0 100] in
  match _search_docs_internal w query max_context_fragments with
  | Ok snippets =>
    if bool_decide (snippets = []) then
      let text :=
        py "В документации не нашлось ничего по запросу " ++ repr query ++ py ". "
        ++ py "MCP-сервер не может ответить на основе документов." in
      (log,
       Ok {| content := [text];
             structured_content :=
               Some [("answer"%string, JNone);
                     ("used_snippets"%string, JList []);
                     ("query"%string, JStr query)];
             meta := None |})
    else
      let lines :=
        [py "Ниже приведены фрагменты документации, которые можно использовать для ответа на вопрос.";
         py "Вопрос: " ++ repr query;
         []]
        ++ imap (fun idx s =>
                   py "### Фрагмент " ++ str_int (Z.of_nat idx + 1) ++ py " (score="
                   ++ str_int (score s) ++ py ", file=" ++ file s ++ py "):" ++ nl
                   ++ snippet s ++ nl) snippets in
      let text := join nl lines in
      (log ++ [CtxProgress 100 100],
       Ok {| content := [text];
             structured_content :=
               Some [("answer"%string, JStr text);
                     ("used_snippets"%string, JList (map snippet_json snippets));
                     ("query"%string, JStr query)];
             meta := None |})
  | Raise e => mcp_failure log (py "Ошибка при ответе на основе документации") e
  end.

End Tools.

End DocsRag.

(** ** The vocabulary of the specification *)

Module Spec.
Import Py Fs DocsRag.

(** The truncation marker appended to a cut paragraph. *)
Definition marker : pystr := py "...".

(** Non-increasing order of the scores, and the snippets of one score. *)
Definition by_score_desc (a b : Snippet) : Prop := (score b <= score a)%Z.

Definition with_score (k : Z) (s : Snippet) : Prop := score s = k.

#[global] Instance with_score_dec k s : Decision (with_score k s) := Z.eq_dec _ _.

(** [sub] occurs in [s] at offset [i]. *)
Definition occurs_at (sub s : pystr) (i : nat) : Prop :=
  take (length sub) (drop i s) = sub.

(** Offsets of occurrences of [sub] in [s], in increasing order, no two of
    which overlap. *)
Definition nonoverlapping (sub s : pystr) (offsets : list nat) : Prop :=
  Forall (occurs_at sub s) offsets
  ∧ StronglySorted (fun p q => p + length sub <= q) offsets.

(** [n] is the number of non-overlapping occurrences of [sub] in [s]: the
    largest number of occurrences that can be chosen without overlap. *)
Definition max_nonoverlapping (sub s : pystr) (n : nat) : Prop :=
  (∃ offsets, nonoverlapping sub s offsets ∧ length offsets = n)
  ∧ ∀ offsets, nonoverlapping sub s offsets → length offsets <= n.

(** The number of offsets at which [sub] occurs, overlapping or not. *)
Fixpoint overlapping_count (sub s : pystr) : nat :=
  match s with
  | [] => 0
  | _ :: t => (if startswith sub s then 1 else 0) + overlapping_count sub t
  end.

(** The value stored under a key of a structured payload. *)
Fixpoint dict_get (key : string) (fields : list (string * Json)) : option Json :=
  match fields with
  | [] => None
  | (k, v) :: rest => if bool_decide (k = key) then Some v else dict_get key rest
  end.

Definition field (key : string) (r : ToolResult) : option Json :=
  fields ← structured_content r; dict_get key fields.

(** [r] names [p] relative to [base]. *)
Definition relative_name (base p : Path) (r : pystr) : Prop :=
  ∃ rel, rel ≠ [] ∧ p = base ++ rel ∧ r = str_rel rel.

Section WithRuntime.
Context `{Runtime}.

(** The lowercase word tokens of a query, in order, repeated as often as
    the query repeats them; and the same as a set, each token once. *)
Definition query_tokens (query : pystr) : list pystr :=
  re_findall_word (lower query).

Definition token_set (query : pystr) : list pystr :=
  remove_dups (query_tokens query).

(** The sum over [tokens] of the case-insensitive occurrence count of the
    token in [para]. *)
Definition score_over (tokens : list pystr) (para : pystr) : Z :=
  sum (map (fun tok => count (lower para) tok) tokens).

(** What a paragraph of more than 600 characters is cut to. *)
Definition truncated (para : pystr) : pystr :=
  if (600 <? len para)%Z then take 600 para ++ marker else para.

(** The snippets a file produces, in paragraph order, before ranking and
    capping; nothing for a file that cannot be read. *)
Definition produced (w : World) (path : Path) (query : pystr) : list Snippet :=
  match read_text w path Ignore with
  | Ok content => omap (scan_paragraph path query) (re_split_blank content)
  | Raise _ => []
  end.

(** The same over the corpus, files in scan order. *)
Definition produced_all (w : World) (query : pystr) : list Snippet :=
  concat (map (fun f => produced w f query) (_iter_doc_files w)).

(** [para] is the trimmed text of a paragraph of the file that yields [s]. *)
Definition source_paragraph (w : World) (path : Path) (query : pystr)
    (s : Snippet) (para : pystr) : Prop :=
  ∃ content raw,
    read_text w path Ignore = Ok content
    ∧ raw ∈ re_split_blank content
    ∧ strip raw = para
    ∧ scan_paragraph path query raw = Some s.

(** The per-file result of a file, as a list. *)
Definition file_snippets (w : World) (query : pystr) (path : Path) : list Snippet :=
  match _search_in_file w path query 3 with
  | Ok snippets => snippets
  | Raise _ => []
  end.

(** Reading the file raises an OS-level error; reading it succeeds. *)
Definition read_fails (w : World) (path : Path) : Prop :=
  read_text w path Ignore = Raise OSError.


End WithRuntime.

End Spec.

(** ** Sample corpora *)

Module Demo.
Import Py Fs DocsRag.

Definition bytes (s : string) : list byte := String.list_byte_of_string s.

(** A process started in [/srv/app] with [DOCS_DIR] unset, so that the
    documentation root is [/srv/app/docs], and [docs] what lies there. *)
Definition world_with (docs : list (pystr * Node)) : World := {|
  environ_DOCS_DIR := None;
  resolve := posix_resolve [py "srv"; py "app"];
  root := Dir [(py "srv", Dir [(py "app", Dir docs)])]
|}.

Definition docs_root : Path := [py "srv"; py "app"; py "docs"].

Definition in_docs (name : string) : Path := docs_root ++ [py name].

Definition in_sub (name : string) : Path := docs_root ++ [py "sub"; py name].

(** One document with the single paragraph [error timeout error]. *)
Definition w_single : World :=
  world_with [(py "docs", Dir [(py "a.md", File (Contents (bytes "error timeout error")))])].

(** A paragraph of 780 characters. *)
Definition long_paragraph : list byte := mjoin (replicate 130 (bytes "error ")).

(** Invalid UTF-8: a stray continuation byte and a cut sequence. *)
Definition damaged : list byte :=
  bytes "error " ++ [x80] ++ bytes "code" ++ [xe2; x82].

Definition w_corpus : World :=
  world_with
    [(py "docs",
      Dir [(py "a.md", File (Contents (bytes "error timeout error

Nothing to see

An Error again, terror

one more error")));
           (py "locked.md", File Unreadable);
           (py "notes.py", File (Contents (bytes "error error error")));
           (py "sub", Dir [(py "b.TXT", File (Contents long_paragraph));
                           (py "c.rst", File (Contents damaged))])])].

(** A root that holds no document of a listed extension. *)
Definition w_no_match : World :=
  world_with [(py "docs", Dir [(py "notes.py", File (Contents (bytes "error")));
                               (py "img", Dir [(py "logo.png", File Unreadable)])])].

(** Two documents of equal score, [z.md] listed before [a.md]. *)
Definition w_ties : World :=
  world_with [(py "docs", Dir [(py "z.md", File (Contents (bytes "e e e e e")));
                               (py "a.md", File (Contents (bytes "E E E E E")))])].



(** Documents that hold nothing but whitespace. *)
Definition w_blank : World :=
  world_with
    [(py "docs",
      Dir [(py "empty.md", File (Contents []));
           (py "blank.txt", File (Contents [x20; x0a; x0a; x09; x20; x0d; x0a]))])].

End Demo.

(** ** tools/utils.py *)

Module Utils.
Import Py.

(** The process environment, [os.environ]. *)
Abbreviation Environ := (gmap (list N) (list N)).

(** What [require_env] does: it returns the value, or raises [ValueError]
    with a message. *)
Inductive outcome :=
| Returns (value : pystr)
| RaisesValueError (message : pystr).

Definition missing_message (name : pystr) : pystr :=
  py "Обязательная переменная окружения " ++ name ++ py " не задана".

(** [if value := os.getenv(name): return value; else: raise ValueError(..)]:
    an empty value is false. *)
Definition require_env (environ : Environ) (name : pystr) : outcome :=
  match environ !! name with
  | Some value =>
    if bool_decide (value ≠ []) then Returns value
    else RaisesValueError (missing_message name)
  | None => RaisesValueError (missing_message name)
  end.

End Utils.

(** ** client_test.py *)

Module ClientTest.
Import Py.

(** The line boundaries of [str.splitlines]. *)
Definition is_linebreak (c : N) : bool :=
  bool_decide (c ∈ [10; 11; 12; 13; 28; 29; 30; 0x85; 0x2028; 0x2029]%N).

(** What follows the last boundary is a line unless it is empty. *)
Definition flush_line (cur : pystr) : list pystr :=
  match cur with
  | [] => []
  | _ :: _ => [cur]
  end.

(** [s.splitlines()]: a line ends at a boundary, CR LF counting as one. *)
Fixpoint splitlines_from (cur : pystr) (s : pystr) : list pystr :=
  match s with
  | [] => flush_line cur
  | c :: t =>
    if (c =? 13)%N then
      match t with
      | c' :: t' =>
        if (c' =? 10)%N then cur :: splitlines_from [] t'
        else cur :: splitlines_from [] t
      | [] => [cur]
      end
    else if is_linebreak c then cur :: splitlines_from [] t
    else splitlines_from (cur ++ [c]) t
  end.

Definition splitlines (s : pystr) : list pystr := splitlines_from [] s.

Section WithRuntime.
Context `{Runtime}.

(** [s.removeprefix(prefix)] *)
Definition removeprefix (prefix s : pystr) : pystr :=
  if startswith prefix s then drop (length prefix) s else s.

(** One turn of the loop of [extract_sse_json]. *)
Definition extract_step (last_json : option pystr) (line : pystr) : option pystr :=
  let line := strip line in
  if startswith (py "data:") line then
    let candidate := strip (removeprefix (py "data:") line) in
    if bool_decide (candidate ≠ []) then Some candidate else last_json
  else last_json.

Definition extract_sse_json (raw : pystr) : option pystr :=
  foldl extract_step None (splitlines raw).

End WithRuntime.

End ClientTest.

(** ** Further vocabulary *)

Module Notions.
Import Py Fs DocsRag Spec ClientTest.

(** [x] is a contiguous excerpt of [s]. *)
Definition excerpt (x s : pystr) : Prop := ∃ pre post, s = pre ++ x ++ post.

(** [p] lies below the directory [base]. *)
Definition below (base p : Path) : Prop := ∃ rel, rel ≠ [] ∧ p = base ++ rel.

Definition is_ctx_error (e : CtxEvent) : Prop :=
  match e with
  | CtxError _ => True
  | _ => False
  end.





Section WithRuntime.
Context `{Runtime}.

(** No whitespace at either end. *)
Definition trimmed (s : pystr) : Prop :=
  (∀ c rest, s = c :: rest → isspace c = false)
  ∧ (∀ c, last s = Some c → isspace c = false).

(** Some token of the query occurs in the lowercased text. *)
Definition mentions (query text : pystr) : Prop :=
  ∃ tok i, tok ∈ query_tokens query ∧ occurs_at tok (lower text) i.

(** The text holds a blank line: two line feeds with nothing but
    whitespace between them. *)
Definition has_blank_line (s : pystr) : Prop :=
  ∃ pre mid post,
    s = pre ++ [10%N] ++ mid ++ [10%N] ++ post
    ∧ Forall (fun c => isspace c = true) mid.

(** The text [p], followed by [rest], in which no line feed starts a
    paragraph separator. *)
Definition clean (p rest : pystr) : Prop :=
  ∀ p1 p2, p = p1 ++ 10%N :: p2 → blank_tail (p2 ++ rest) = None.

(** The payload a line of an event stream carries after [data:], if any. *)
Definition data_payload (line : pystr) : option pystr :=
  extract_step None line.

End WithRuntime.

End Notions.

(** ** Further samples *)

Module Samples.
Import Py Utils.

(** An environment with the repository set and the token set but empty. *)
Definition sample_environ : Environ :=
  <[py "GITHUB_REPO" := py "acme/support"]> (<[py "GITHUB_TOKEN" := []]> ∅).

(** An event stream of two events and a comment line. *)
Definition sample_stream : pystr :=
  py "event: message
data: {1}

: keep-alive
  data:   {2}  
data:
".

End Samples.

Import Py Fs DocsRag Spec.

(** ** Facts about the list operations *)

Section SortFacts.
Context {A : Type} (key : A -> Z).

Local Abbreviation desc := (fun a b : A => (key b <= key a)%Z).

Lemma insert_desc_perm x l : insert_desc key x l ≡ₚ x :: l.
Proof.
  induction l as [|y l IH]; simpl; [done|].
  destruct (key x <? key y)%Z; [|done].
  rewrite IH. apply Permutation_swap.
Qed.

Lemma sort_reverse_perm l : sort_reverse key l ≡ₚ l.
Proof.
  induction l as [|x l IH]; simpl; [done|].
  rewrite insert_desc_perm. by f_equiv.
Qed.

Lemma elem_of_sort_reverse x l : x ∈ sort_reverse key l ↔ x ∈ l.
Proof. by rewrite sort_reverse_perm. Qed.

Lemma insert_desc_sorted x l :
  StronglySorted desc l → StronglySorted desc (insert_desc key x l).
Proof.
  induction 1 as [|y l Hl IH Hy]; simpl.
  - repeat constructor.
  - destruct (Z.ltb_spec (key x) (key y)) as [Hlt|Hge].
    + constructor; [done|].
      rewrite insert_desc_perm. constructor; [lia|done].
    + constructor; [by constructor|].
      constructor; [lia|].
      eapply Forall_impl; [exact Hy|]. simpl. intros z Hz. lia.
Qed.

Lemma sort_reverse_sorted l : StronglySorted desc (sort_reverse key l).
Proof.
  induction l as [|x l IH]; simpl; [constructor|].
  by apply insert_desc_sorted.
Qed.

(** Stability: the elements of any one key are in their original order. *)
Lemma insert_desc_stable k x l :
  filter (fun a => key a = k) (insert_desc key x l)
  = filter (fun a => key a = k) (x :: l).
Proof.
  induction l as [|y l IH]; simpl; [done|].
  destruct (Z.ltb_spec (key x) (key y)) as [Hlt|Hge]; [|done].
  rewrite (filter_cons _ y), IH, !filter_cons.
  repeat case_decide; try done; lia.
Qed.

Lemma sort_reverse_stable k l :
  filter (fun a => key a = k) (sort_reverse key l)
  = filter (fun a => key a = k) l.
Proof.
  induction l as [|x l IH]; simpl; [done|].
  rewrite insert_desc_stable, !filter_cons, IH. done.
Qed.

End SortFacts.

Section SortUnique.
Context {A : Type} (key : A -> Z).

Local Abbreviation desc := (fun a b : A => (key b <= key a)%Z).

Lemma filter_key_head x l : filter (fun a => key a = key x) (x :: l) ≠ [].
Proof. by rewrite filter_cons, decide_True. Qed.

Lemma sorted_head_max x l z :
  StronglySorted desc (x :: l) → z ∈ x :: l → (key z <= key x)%Z.
Proof.
  intros [_ Hx]%StronglySorted_inv [->|Hz]%elem_of_cons; [lia|].
  rewrite Forall_forall in Hx. by apply Hx.
Qed.

Lemma sorted_heads_agree x l1 y l2 :
  StronglySorted desc (x :: l1) → StronglySorted desc (y :: l2) →
  (∀ k, filter (fun a => key a = k) (x :: l1) = filter (fun a => key a = k) (y :: l2)) →
  (key x <= key y)%Z.
Proof.
  intros _ Hs2 Heq.
  assert (x ∈ filter (fun a => key a = key x) (y :: l2)) as Hx.
  { rewrite <-Heq, filter_cons, decide_True by done. apply list_elem_of_here. }
  apply list_elem_of_filter in Hx as [_ Hx].
  by eapply sorted_head_max.
Qed.

(** A list in descending order of the key is determined by its elements
    of each key, taken in order: whatever stable sort runs, the result is
    that of [sort_reverse]. *)
Lemma sorted_determined_by_keys l1 : ∀ l2,
  StronglySorted desc l1 → StronglySorted desc l2 →
  (∀ k, filter (fun a => key a = k) l1 = filter (fun a => key a = k) l2) →
  l1 = l2.
Proof.
  induction l1 as [|x l1 IH]; intros [|y l2] Hs1 Hs2 Heq; [done| | |].
  - specialize (Heq (key y)). symmetry in Heq. by apply filter_key_head in Heq.
  - specialize (Heq (key x)). by apply filter_key_head in Heq.
  - assert (key x = key y) as Hkey.
    { apply Z.le_antisymm; eapply sorted_heads_agree; eauto. }
    assert (x = y) as <-.
    { specialize (Heq (key x)). rewrite !filter_cons in Heq.
      rewrite decide_True in Heq by done. rewrite decide_True in Heq by done.
      by injection Heq. }
    f_equal. apply IH.
    + by apply StronglySorted_inv in Hs1 as [? _].
    + by apply StronglySorted_inv in Hs2 as [? _].
    + intros k. specialize (Heq k). rewrite !filter_cons in Heq.
      destruct (decide (key x = k)); [by injection Heq|done].
Qed.

Lemma stable_sort_unique l l' :
  StronglySorted desc l' →
  (∀ k, filter (fun a => key a = k) l' = filter (fun a => key a = k) l) →
  l' = sort_reverse key l.
Proof.
  intros Hs Heq. apply sorted_determined_by_keys; [done|apply sort_reverse_sorted|].
  intros k. by rewrite sort_reverse_stable.
Qed.

End SortUnique.

Section SliceFacts.
Context {A : Type}.
Implicit Types l : list A.

Lemma slice_to_take l n : ∃ k, slice_to l n = take k l.
Proof. unfold slice_to. destruct (0 <=? n)%Z; eauto. Qed.

Lemma slice_to_prefix l n : slice_to l n `prefix_of` l.
Proof. destruct (slice_to_take l n) as [k ->]. apply prefix_take. Qed.

Lemma elem_of_slice_to x l n : x ∈ slice_to l n → x ∈ l.
Proof.
  destruct (slice_to_take l n) as [k ->]. apply subseteq_take.
Qed.

Lemma slice_to_length l n : (0 <= n)%Z → (Z.of_nat (length (slice_to l n)) <= n)%Z.
Proof.
  intros Hn. unfold slice_to.
  destruct (Z.leb_spec 0 n); [|lia].
  rewrite length_take. lia.
Qed.

Lemma slice_to_all l n : (Z.of_nat (length l) <= n)%Z → slice_to l n = l.
Proof.
  intros Hn. unfold slice_to.
  destruct (Z.leb_spec 0 n); [|lia].
  apply take_ge. lia.
Qed.

Lemma prefix_strongly_sorted (R : relation A) l1 l2 :
  l1 `prefix_of` l2 → StronglySorted R l2 → StronglySorted R l1.
Proof. intros [k ->] Hs. by apply StronglySorted_app_1_l in Hs. Qed.

Lemma prefix_filter (P : A → Prop) `{!∀ x, Decision (P x)} l1 l2 :
  l1 `prefix_of` l2 → filter P l1 `prefix_of` filter P l2.
Proof. intros [k ->]. rewrite filter_app. by eexists. Qed.

Lemma prefix_sublist l1 l2 : l1 `prefix_of` l2 → l1 `sublist_of` l2.
Proof. intros [k ->]. by apply sublist_inserts_r. Qed.

Lemma elem_of_concat x (ls : list (list A)) :
  x ∈ concat ls ↔ ∃ l, x ∈ l ∧ l ∈ ls.
Proof.
  induction ls as [|l ls IH]; simpl.
  - split; [by intros ?%elem_of_nil | by intros (l & _ & ?%elem_of_nil)].
  - rewrite elem_of_app, IH. split.
    + intros [Hx | (l' & Hx & Hl')]; [exists l | exists l'];
        split; auto using list_elem_of_here, list_elem_of_further.
    + intros (l' & Hx & [-> | Hl']%elem_of_cons); eauto.
Qed.

Lemma sublist_concat_pointwise (ls ks : list (list A)) :
  Forall2 sublist ls ks → concat ls `sublist_of` concat ks.
Proof.
  induction 1; simpl; [constructor|]. by apply sublist_app.
Qed.

Lemma filter_concat (P : A → Prop) `{!∀ x, Decision (P x)} (ls : list (list A)) :
  filter P (concat ls) = concat (map (filter P) ls).
Proof.
  induction ls as [|l ls IH]; simpl; [done|].
  by rewrite filter_app, IH.
Qed.

End SliceFacts.

(** ** Facts about reading and scoring *)

Lemma filter_all {A} (P : A → Prop) `{!∀ x, Decision (P x)} (l : list A) :
  Forall P l → filter P l = l.
Proof.
  induction 1 as [|x l Hx Hl IH]; [done|].
  rewrite filter_cons, decide_True by done. by rewrite IH.
Qed.

Lemma slice_to_nil {A} n : slice_to (@nil A) n = [].
Proof. unfold slice_to. destruct (0 <=? n)%Z; apply take_nil. Qed.

Lemma utf8_decode_ignore data : ∃ text, utf8_decode Ignore data = Ok text.
Proof. unfold utf8_decode. eauto. Qed.

Lemma read_text_ignore w path :
  (∃ content, read_text w path Ignore = Ok content)
  ∨ read_text w path Ignore = Raise OSError.
Proof.
  unfold read_text.
  destruct (lookup w path) as [[[|data]|entries]|]; auto.
  left. destruct (utf8_decode_ignore data) as [text ->]. simpl. eauto.
Qed.

Section ScoreFacts.
Context `{Runtime}.

Lemma flush_nonempty acc : Forall (fun tok => tok ≠ []) (flush acc).
Proof. destruct acc; repeat constructor. done. Qed.

Lemma findall_word_from_nonempty s : ∀ acc,
  Forall (fun tok => tok ≠ []) (findall_word_from acc s).
Proof.
  induction s as [|c t IH]; intros acc; simpl.
  - apply flush_nonempty.
  - destruct (is_word c); [apply IH|].
    apply Forall_app. split; [apply flush_nonempty | apply IH].
Qed.

Lemma query_tokens_nonempty query : Forall (fun tok => tok ≠ []) (query_tokens query).
Proof. apply findall_word_from_nonempty. Qed.

Lemma simple_score_tokens text query :
  _simple_score text query = score_over (query_tokens query) text.
Proof.
  unfold _simple_score, score_over, query_tokens.
  by rewrite filter_all by apply findall_word_from_nonempty.
Qed.

Lemma count_nonneg s sub : (0 <= count s sub)%Z.
Proof. unfold count, len. destruct sub; lia. Qed.

Lemma scan_paragraph_some path query raw s :
  scan_paragraph path query raw = Some s →
  strip raw ≠ []
  ∧ file s = str_path path
  ∧ score s = _simple_score (strip raw) query
  ∧ (0 < score s)%Z
  ∧ snippet s = truncated (strip raw).
Proof.
  unfold scan_paragraph, truncated, marker.
  case_bool_decide as Hne; [done|].
  destruct (Z.leb_spec (_simple_score (strip raw) query) 0) as [Hle|Hgt]; [done|].
  intros [= <-]. simpl. done.
Qed.

Lemma search_in_file_eq w path query n :
  _search_in_file w path query n
  = Ok (slice_to (sort_reverse score (produced w path query)) n).
Proof.
  unfold _search_in_file, produced.
  destruct (read_text_ignore w path) as [[content ->] | ->]; [done|].
  simpl. by rewrite slice_to_nil.
Qed.

Lemma file_snippets_eq w query path :
  file_snippets w query path
  = slice_to (sort_reverse score (produced w path query)) 3.
Proof. unfold file_snippets. by rewrite search_in_file_eq. Qed.

Lemma extend_all_eq w query files : ∀ acc,
  extend_all w query files acc
  = Ok (acc ++ concat (map (file_snippets w query) files)).
Proof.
  induction files as [|f files IH]; intros acc; simpl.
  - by rewrite app_nil_r.
  - rewrite search_in_file_eq. simpl. rewrite IH.
    by rewrite file_snippets_eq, (assoc_L (++)).
Qed.

Lemma search_docs_internal_eq w query n :
  _search_docs_internal w query n
  = Ok (slice_to (sort_reverse score
          (concat (map (file_snippets w query) (_iter_doc_files w)))) n).
Proof.
  unfold _search_docs_internal. by rewrite extend_all_eq.
Qed.

Lemma elem_of_produced w path query s :
  s ∈ produced w path query ↔ ∃ para, source_paragraph w path query s para.
Proof.
  unfold produced, source_paragraph. split.
  - destruct (read_text w path Ignore) as [content|e] eqn:Hr.
    + intros (raw & Hraw & Hs)%list_elem_of_omap. by exists (strip raw), content, raw.
    + by intros ?%elem_of_nil.
  - intros (para & content & raw & -> & Hraw & _ & Hs).
    apply list_elem_of_omap. eauto.
Qed.

Lemma elem_of_file_snippets w query path s :
  s ∈ file_snippets w query path → s ∈ produced w path query.
Proof.
  rewrite file_snippets_eq. intros Hs%elem_of_slice_to.
  by apply elem_of_sort_reverse in Hs.
Qed.

End ScoreFacts.

(** ** The paragraph scorer and the aggregator *)

Lemma source_paragraph_score `{Runtime} w path query s para :
  source_paragraph w path query s para →
  para ≠ []
  ∧ file s = str_path path
  ∧ score s = _simple_score para query
  ∧ (0 < score s)%Z
  ∧ snippet s = truncated para.
Proof.
  intros (content & raw & _ & _ & <- & Hs).
  by apply scan_paragraph_some in Hs.
Qed.

Lemma search_in_file_sources `{Runtime} w path query n s :
  s ∈ slice_to (sort_reverse score (produced w path query)) n →
  ∃ para, source_paragraph w path query s para.
Proof.
  intros Hs%elem_of_slice_to. apply elem_of_sort_reverse in Hs.
  by apply elem_of_produced.
Qed.

Lemma search_docs_sources `{Runtime} w query n s :
  s ∈ slice_to (sort_reverse score
        (concat (map (file_snippets w query) (_iter_doc_files w)))) n →
  ∃ path para, path ∈ _iter_doc_files w ∧ source_paragraph w path query s para.
Proof.
  intros Hs%elem_of_slice_to. apply elem_of_sort_reverse in Hs.
  apply elem_of_concat in Hs as (l & Hs & Hl).
  apply list_elem_of_fmap in Hl as (path & -> & Hpath).
  apply elem_of_file_snippets, elem_of_produced in Hs as [para Hpara].
  eauto.
Qed.

Lemma truncated_length `{Runtime} para :
  length (truncated para) <= 600 + length marker
  ∧ ((600 < len para)%Z →
       truncated para = take 600 para ++ marker ∧ length (take 600 para) = 600)
  ∧ ((len para <= 600)%Z → truncated para = para).
Proof.
  unfold truncated, len.
  destruct (Z.ltb_spec 600 (Z.of_nat (length para))) as [Hlong|Hshort].
  - assert (length (take 600 para) = 600) by (rewrite length_take; lia).
    rewrite length_app. split; [lia|]. split; [done|]. intros. lia.
  - split; [lia|]. split; [intros; lia|done].
Qed.

(** C1, amended: every snippet of the per-file search comes from a
    paragraph of the file, and its score is the sum, over the lowercase
    word tokens of the query taken in order and as often as the query
    repeats them, of the case-insensitive occurrence count of the token in
    the trimmed paragraph before truncation. *)
Theorem snippet_score_sums_over_query_tokens `{Runtime} w path query max_snippets :
  ∃ out, _search_in_file w path query max_snippets = Ok out
    ∧ ∀ s, s ∈ out →
        (∃ para, source_paragraph w path query s para)
        ∧ ∀ para, source_paragraph w path query s para →
            score s = score_over (query_tokens query) para.
Proof.
  eexists. split; [apply search_in_file_eq|].
  intros s Hs. split; [by eapply search_in_file_sources|].
  intros para (_ & _ & -> & _)%source_paragraph_score.
  apply simple_score_tokens.
Qed.

(** C2: every snippet of the per-file search holds at most 600 characters
    of its paragraph, followed by the marker when the paragraph was longer,
    and its score is the score of the whole paragraph, cut or not. *)
Theorem snippet_text_bounded_score_of_whole_paragraph `{Runtime}
    w path query max_snippets :
  ∃ out, _search_in_file w path query max_snippets = Ok out
    ∧ Forall (fun s =>
        length (snippet s) <= 600 + length marker
        ∧ ∃ para, source_paragraph w path query s para
            ∧ score s = _simple_score para query
            ∧ ((600 < len para)%Z →
                 snippet s = take 600 para ++ marker
                 ∧ length (take 600 para) = 600)
            ∧ ((len para <= 600)%Z → snippet s = para)) out
    ∧ length marker = 3.
Proof.
  eexists. split; [apply search_in_file_eq|]. split; [|done].
  apply Forall_forall. intros s Hs.
  apply search_in_file_sources in Hs as [para Hpara].
  destruct (source_paragraph_score _ _ _ _ _ Hpara) as (_ & _ & Hscore & _ & ->).
  destruct (truncated_length para) as (Hlen & Hlong & Hshort).
  split; [done|]. by exists para.
Qed.

(** C3: the per-file search with the cap of 3 returns at most 3 snippets,
    and the aggregate search with [max_results] between 1 and 20 returns
    at most [max_results] snippets. *)
Theorem result_counts_capped `{Runtime} w query :
  (∀ path, ∃ out, _search_in_file w path query 3 = Ok out ∧ length out <= 3)
  ∧ ∀ max_results, (1 <= max_results <= 20)%Z →
      ∃ out, _search_docs_internal w query max_results = Ok out
        ∧ (Z.of_nat (length out) <= max_results)%Z.
Proof.
  split.
  - intros path. eexists. split; [apply search_in_file_eq|].
    pose proof (slice_to_length (sort_reverse score (produced w path query)) 3).
    lia.
  - intros n Hn. eexists. split; [apply search_docs_internal_eq|].
    apply slice_to_length. lia.
Qed.

Lemma file_snippets_ties `{Runtime} w query k path :
  filter (with_score k) (file_snippets w query path)
  `prefix_of` filter (with_score k) (produced w path query).
Proof.
  rewrite file_snippets_eq.
  rewrite <-(sort_reverse_stable score k (produced w path query)).
  apply prefix_filter, slice_to_prefix.
Qed.

Lemma all_snippets_ties `{Runtime} w query k files :
  filter (with_score k) (concat (map (file_snippets w query) files))
  `sublist_of`
  filter (with_score k) (concat (map (fun f => produced w f query) files)).
Proof.
  induction files as [|f files IH]; simpl; [done|].
  rewrite !filter_app. apply sublist_app; [|done].
  apply prefix_sublist, file_snippets_ties.
Qed.

(** C4: the per-file result and the aggregate result are in non-increasing
    order of score, and snippets of equal score stand in the order of
    production: in the per-file result they are the first ones of that
    score in paragraph order, in the aggregate result they follow the scan
    order of the documents and, within a document, paragraph order. *)
Theorem results_sorted_descending_and_stable `{Runtime} w query :
  (∀ path max_snippets,
     ∃ out, _search_in_file w path query max_snippets = Ok out
       ∧ StronglySorted by_score_desc out
       ∧ ∀ k, filter (with_score k) out
              `prefix_of` filter (with_score k) (produced w path query))
  ∧ ∀ max_results,
     ∃ out, _search_docs_internal w query max_results = Ok out
       ∧ StronglySorted by_score_desc out
       ∧ ∀ k, filter (with_score k) out
              `sublist_of` filter (with_score k) (produced_all w query).
Proof.
  split.
  - intros path n. eexists. split; [apply search_in_file_eq|]. split.
    + eapply prefix_strongly_sorted; [apply slice_to_prefix|].
      apply (sort_reverse_sorted score).
    + intros k.
      rewrite <-(sort_reverse_stable score k (produced w path query)).
      apply prefix_filter, slice_to_prefix.
  - intros n. eexists. split; [apply search_docs_internal_eq|]. split.
    + eapply prefix_strongly_sorted; [apply slice_to_prefix|].
      apply (sort_reverse_sorted score).
    + intros k. unfold produced_all.
      etrans; [|apply all_snippets_ties].
      rewrite <-(sort_reverse_stable score k (concat _)).
      apply prefix_sublist. apply prefix_filter, slice_to_prefix.
Qed.

(** C5: no snippet returned by the per-file search or by the aggregate
    search has a score of zero or less. *)
Theorem no_snippet_without_match `{Runtime} w query :
  (∀ path max_snippets,
     ∃ out, _search_in_file w path query max_snippets = Ok out
       ∧ Forall (fun s => ¬ (score s <= 0)%Z) out)
  ∧ ∀ max_results,
     ∃ out, _search_docs_internal w query max_results = Ok out
       ∧ Forall (fun s => ¬ (score s <= 0)%Z) out.
Proof.
  split.
  - intros path n. eexists. split; [apply search_in_file_eq|].
    apply Forall_forall. intros s [para Hpara]%search_in_file_sources.
    apply source_paragraph_score in Hpara. lia.
  - intros n. eexists. split; [apply search_docs_internal_eq|].
    apply Forall_forall. intros s (path & para & _ & Hpara)%search_docs_sources.
    apply source_paragraph_score in Hpara. lia.
Qed.

(** ** [str.count] counts non-overlapping occurrences *)

Lemma startswith_take sub s : startswith sub s = true ↔ take (length sub) s = sub.
Proof.
  revert s. induction sub as [|a sub IH]; intros [|b s]; simpl; try done.
  rewrite andb_true_iff, N.eqb_eq, IH. split.
  - by intros [-> ->].
  - by intros [= -> ->].
Qed.

Lemma startswith_occurs sub s : startswith sub s = true ↔ occurs_at sub s 0.
Proof. apply startswith_take. Qed.

Lemma count_from_skip sub s : ∀ k, count_from k s sub = count_from 0 (drop k s) sub.
Proof.
  induction s as [|c t IH]; intros [|k]; try done. simpl. apply IH.
Qed.

Lemma count_from_cons sub c t :
  sub ≠ [] →
  count_from 0 (c :: t) sub
  = if startswith sub (c :: t) then S (count_from 0 (drop (length sub) (c :: t)) sub)
    else count_from 0 t sub.
Proof.
  intros Hsub. cbn [count_from].
  destruct (startswith sub (c :: t)); [|done].
  rewrite count_from_skip. destruct sub as [|a sub]; [done|].
  simpl. by rewrite Nat.sub_0_r.
Qed.

Lemma occurs_at_drop sub s d i : occurs_at sub (drop d s) i ↔ occurs_at sub s (d + i).
Proof. unfold occurs_at. by rewrite drop_drop. Qed.

Lemma nonoverlapping_shift_up sub s d offsets :
  nonoverlapping sub (drop d s) offsets →
  nonoverlapping sub s (map (fun q => d + q) offsets).
Proof.
  intros [Hocc Hsorted]. split.
  - apply Forall_fmap. eapply Forall_impl; [exact Hocc|].
    intros q. apply occurs_at_drop.
  - clear Hocc. induction Hsorted as [|p rest Hrest IH Hp]; simpl; constructor; [done|].
    apply Forall_fmap. eapply Forall_impl; [exact Hp|]. simpl. intros; lia.
Qed.

Lemma nonoverlapping_shift_down sub s d offsets :
  Forall (fun q => d <= q) offsets →
  nonoverlapping sub s offsets →
  nonoverlapping sub (drop d s) (map (fun q => q - d) offsets).
Proof.
  intros Hd [Hocc Hsorted]. split.
  - apply Forall_fmap, Forall_forall. intros q Hq. simpl.
    rewrite Forall_forall in Hd, Hocc.
    apply occurs_at_drop. replace (d + (q - d)) with q by (specialize (Hd q Hq); lia).
    by apply Hocc.
  - induction Hsorted as [|p rest Hrest IH Hp]; simpl; [constructor|].
    apply Forall_cons in Hd as [Hpd Hd]. apply Forall_cons in Hocc as [_ Hocc].
    constructor; [by apply IH|].
    apply Forall_fmap, Forall_forall. intros q Hq. simpl.
    rewrite Forall_forall in Hp, Hd. specialize (Hp q Hq). specialize (Hd q Hq). lia.
Qed.

Lemma count_from_max sub : sub ≠ [] →
  ∀ n s, length s <= n → max_nonoverlapping sub s (count_from 0 s sub).
Proof.
  intros Hsub. assert (0 < length sub) as Hm by (destruct sub; [done|simpl; lia]).
  induction n as [|n IH]; intros [|c t] Hlen; simpl in Hlen; try lia.
  1,2: split; [exists []; repeat split; constructor|];
       intros [|p rest] [Hocc _]; [done|];
       apply Forall_cons in Hocc as [Hp _]; unfold occurs_at in Hp;
       rewrite drop_nil, take_nil in Hp; by subst.
  rewrite count_from_cons by done.
  destruct (startswith sub (c :: t)) eqn:Hstart.
  - destruct (IH (drop (length sub) (c :: t))) as [(offs & Hoffs & Hcount) Hmax].
    { rewrite length_drop. simpl. lia. }
    split.
    + exists (0 :: map (fun q => length sub + q) offs). split; [|simpl; by rewrite length_map, Hcount].
      apply nonoverlapping_shift_up in Hoffs as [Hocc Hsorted]. split.
      * constructor; [by apply startswith_occurs|done].
      * constructor; [done|]. apply Forall_fmap, Forall_forall. intros; simpl; lia.
    + intros [|p rest] Hvalid; simpl; [lia|].
      assert (Forall (fun q => length sub <= q) rest) as Hrest.
      { destruct Hvalid as [_ Hs]. apply StronglySorted_inv in Hs as [_ Hs].
        eapply Forall_impl; [exact Hs|]. simpl. intros; lia. }
      assert (nonoverlapping sub (c :: t) rest) as Hvalid'.
      { destruct Hvalid as [Hocc Hs]. apply Forall_cons in Hocc as [_ Hocc].
        apply StronglySorted_inv in Hs as [Hs _]. by split. }
      apply (nonoverlapping_shift_down _ _ _ _ Hrest), Hmax in Hvalid'.
      rewrite length_map in Hvalid'. lia.
  - destruct (IH t) as [(offs & Hoffs & Hcount) Hmax]; [lia|].
    split.
    + exists (map (fun q => 1 + q) offs). split; [|by rewrite length_map].
      by apply (nonoverlapping_shift_up sub (c :: t) 1).
    + intros offsets Hvalid.
      assert (Forall (fun q => 1 <= q) offsets) as Hpos.
      { destruct Hvalid as [Hocc _]. eapply Forall_impl; [exact Hocc|].
        intros [|q] Hq; [|lia]. apply startswith_occurs in Hq. congruence. }
      apply (nonoverlapping_shift_down _ _ _ _ Hpos), Hmax in Hvalid.
      by rewrite length_map in Hvalid.
Qed.

Lemma count_max_nonoverlapping s sub :
  sub ≠ [] → ∃ n, max_nonoverlapping sub s n ∧ count s sub = Z.of_nat n.
Proof.
  intros Hsub. exists (count_from 0 s sub). split.
  - by apply (count_from_max sub Hsub (length s)).
  - unfold count. by destruct sub.
Qed.

(** C10: the count a token contributes to the score is the number of
    non-overlapping occurrences of the token in the lowercased text, the
    largest number of occurrences that do not overlap; the token [aa]
    contributes 2 for the text [aaaa], where it occurs at 3 offsets. *)
Theorem score_counts_nonoverlapping_occurrences :
  (∀ (R : Runtime) text query,
     ∃ counts,
       Forall2 (fun tok n => max_nonoverlapping tok (lower text) n)
               (query_tokens query) counts
       ∧ _simple_score text query = sum (map Z.of_nat counts))
  ∧ @_simple_score ascii_runtime (py "aaaa") (py "aa") = 2%Z
  ∧ overlapping_count (py "aa") (py "aaaa") = 3.
Proof.
  split; [|split; vm_compute; reflexivity].
  intros R text query. rewrite simple_score_tokens. unfold score_over.
  pose proof (query_tokens_nonempty query) as Htoks.
  induction Htoks as [|tok toks Htok _ (counts & Hcounts & Hsum)].
  - exists []. by split; [constructor|].
  - destruct (count_max_nonoverlapping (lower text) tok Htok) as (n & Hn & Hcount).
    exists (n :: counts). split; [by constructor|].
    simpl. by rewrite Hcount, Hsum.
Qed.

(** ** Facts about the codec *)

Import Notions.





































(** ** The scanner, unreadable documents and the tools *)





(** C8: when the aggregate search finds nothing, the answer tool returns
    a result whose [answer] is null, not the empty string, whose
    [used_snippets] is empty and whose [query] is the query asked; when it
    finds something, [answer] is a string. *)
Theorem no_evidence_answer_is_null `{Runtime} w query max_context_fragments out :
  _search_docs_internal w query max_context_fragments = Ok out →
  ∃ log r,
    answer_from_docs w query max_context_fragments = (log, Ok r)
    ∧ field "query" r = Some (JStr query)
    ∧ (out = [] →
         field "answer" r = Some JNone
         ∧ field "answer" r ≠ Some (JStr [])
         ∧ field "used_snippets" r = Some (JList []))
    ∧ (out ≠ [] →
         ∃ text, field "answer" r = Some (JStr text)
           ∧ content r = [text]
           ∧ field "used_snippets" r = Some (JList (map snippet_json out))).
Proof.
  intros Hout. unfold answer_from_docs. rewrite Hout.
  case_bool_decide as Hnil; do 2 eexists; (split; [reflexivity|]).
  - split; [done|]. split; [done|]. by intros ?.
  - split; [done|]. split; [by intros ?|]. intros _. eexists. by repeat split.
Qed.

(** ** The listing tool *)

Lemma walk_below n : ∀ base p,
  p ∈ walk base n → ∃ rel, rel ≠ [] ∧ p = base ++ rel.
Proof.
  induction n as [d|entries IH] using Node_tree_ind; intros base p; simpl.
  - by intros ?%elem_of_nil.
  - intros [Hp|Hp]%elem_of_app.
    + apply list_elem_of_fmap in Hp as (e & -> & _). by exists [e.1].
    + induction IH as [|e es He _ IHes]; [by apply elem_of_nil in Hp|].
      apply elem_of_app in Hp as [Hp|Hp]; [|by apply IHes].
      apply He in Hp as (rel & _ & ->).
      exists (e.1 :: rel). split; [done|]. by rewrite <-(assoc_L (++)).
Qed.

Lemma iter_doc_files_below `{Runtime} w p :
  p ∈ _iter_doc_files w → ∃ rel, rel ≠ [] ∧ p = _get_docs_dir w ++ rel.
Proof.
  unfold _iter_doc_files, rglob.
  destruct (negb _ || negb _); [by intros ?%elem_of_nil|].
  intros [_ Hp]%list_elem_of_filter.
  destruct (lookup w (_get_docs_dir w)) as [n|]; [|by apply elem_of_nil in Hp].
  by eapply walk_below.
Qed.

Lemma relative_to_below base rel : relative_to (base ++ rel) base = Ok rel.
Proof.
  unfold relative_to.
  assert (strip_prefix base (base ++ rel) = Some rel) as ->; [|done].
  induction base as [|b base IH]; simpl; [by destruct rel|].
  by rewrite bool_decide_true.
Qed.

Lemma relative_names `{Runtime} base files :
  Forall (fun p => ∃ rel, rel ≠ [] ∧ p = base ++ rel) files →
  ∃ rels,
    mapM (fun p => rel ← relative_to p base; Ok (str_rel rel)) files = Ok rels
    ∧ Forall2 (relative_name base) files rels.
Proof.
  induction 1 as [|p files (rel & Hrel & ->) _ (rels & Hmap & Hrels)].
  - exists []. by split; [|constructor].
  - exists (str_rel rel :: rels). split.
    + cbn [mapM]. rewrite relative_to_below. cbn. rewrite Hmap. done.
    + constructor; [by exists rel|done].
Qed.

(** C9, amended: the listing tool names the documents found, in scan
    order, in both halves of its result: the text lists each by its path
    relative to the documentation root, the structured [files] list holds
    each by its full path, which is the root followed by that relative
    path. *)
Theorem list_docs_names_documents `{Runtime} w :
  ∃ r, list_docs w = ([], Ok r)
    ∧ field "docs_dir" r = Some (JStr (str_path (_get_docs_dir w)))
    ∧ field "files" r
      = Some (JList (map (fun p => JStr (str_path p)) (_iter_doc_files w)))
    ∧ (_iter_doc_files w ≠ [] →
         ∃ rels,
           Forall2 (relative_name (_get_docs_dir w)) (_iter_doc_files w) rels
           ∧ content r
             = [join nl (py "Найдены файлы документации:"
                         :: map (fun rel => py "- " ++ rel) rels)]).
Proof.
  unfold list_docs.
  destruct (relative_names (_get_docs_dir w) (_iter_doc_files w))
    as (rels & Hmap & Hrels).
  { apply Forall_forall. intros p. apply iter_doc_files_below. }
  case_bool_decide as Hnil.
  - eexists. split; [reflexivity|]. by repeat split.
  - rewrite Hmap. eexists. split; [reflexivity|]. repeat split.
    intros _. by exists rels.
Qed.

(** ** Ranking and limits *)

Import Notions.

Lemma sort_reverse_length {A} (key : A → Z) l :
  length (sort_reverse key l) = length l.
Proof. by rewrite sort_reverse_perm. Qed.

Lemma sort_reverse_of_sorted {A} (key : A → Z) l :
  StronglySorted (fun a b => (key b <= key a)%Z) l → sort_reverse key l = l.
Proof. intros Hs. symmetry. by apply stable_sort_unique. Qed.

Lemma slice_to_rest {A} (l : list A) n : ∃ rest, l = slice_to l n ++ rest.
Proof. destruct (slice_to_prefix l n) as [rest Hrest]. by exists rest. Qed.

Lemma slice_to_length_exact {A} (l : list A) n :
  Z.of_nat (length (slice_to l n))
  = if (0 <=? n)%Z then Z.min n (Z.of_nat (length l))
    else Z.max 0 (Z.of_nat (length l) + n).
Proof.
  unfold slice_to. destruct (Z.leb_spec 0 n); rewrite length_take; lia.
Qed.

Lemma slice_to_mono {A} (l : list A) n m :
  (0 <= n <= m)%Z → slice_to l n `prefix_of` slice_to l m.
Proof.
  intros Hnm. unfold slice_to.
  destruct (Z.leb_spec 0 n), (Z.leb_spec 0 m); try lia.
  replace (take (Z.to_nat n) l) with (take (Z.to_nat n) (take (Z.to_nat m) l)).
  - apply prefix_take.
  - rewrite take_take. f_equal. lia.
Qed.

Lemma ranked_prefix {A} (key : A → Z) (l : list A) n :
  ∃ rest,
    slice_to (sort_reverse key l) n ++ rest ≡ₚ l
    ∧ ∀ a b, a ∈ slice_to (sort_reverse key l) n → b ∈ rest → (key b <= key a)%Z.
Proof.
  destruct (slice_to_rest (sort_reverse key l) n) as [rest Hrest].
  exists rest. split.
  - by rewrite <-Hrest, sort_reverse_perm.
  - intros a b Ha Hb.
    pose proof (sort_reverse_sorted key l) as Hs. rewrite Hrest in Hs.
    by apply (StronglySorted_app_1_elem_of _ _ _ a b) in Hs.
Qed.

Lemma file_snippets_length `{Runtime} w query path :
  length (file_snippets w query path) <= 3.
Proof.
  rewrite file_snippets_eq.
  pose proof (slice_to_length (sort_reverse score (produced w path query)) 3).
  lia.
Qed.

Lemma all_snippets_length `{Runtime} w query files :
  length (concat (map (file_snippets w query) files)) <= 3 * length files.
Proof.
  induction files as [|f files IH]; simpl; [lia|].
  rewrite length_app. pose proof (file_snippets_length w query f). lia.
Qed.

Lemma file_snippets_sorted `{Runtime} w query path :
  StronglySorted (fun a b => (score b <= score a)%Z) (file_snippets w query path).
Proof.
  rewrite file_snippets_eq.
  eapply prefix_strongly_sorted; [apply slice_to_prefix|].
  apply (sort_reverse_sorted score).
Qed.

(** X1: the snippets returned outrank the ones left out: what the per-file
    search returns, followed by what it leaves out, is a rearrangement of
    the snippets the file produces, and nothing left out scores higher
    than anything returned; likewise for the aggregate search over the
    per-file results. *)
Theorem returned_snippets_outrank_the_rest `{Runtime} w query :
  (∀ path max_snippets,
     ∃ out rest,
       _search_in_file w path query max_snippets = Ok out
       ∧ out ++ rest ≡ₚ produced w path query
       ∧ ∀ a b, a ∈ out → b ∈ rest → (score b <= score a)%Z)
  ∧ ∀ max_results,
     ∃ out rest,
       _search_docs_internal w query max_results = Ok out
       ∧ out ++ rest ≡ₚ concat (map (file_snippets w query) (_iter_doc_files w))
       ∧ ∀ a b, a ∈ out → b ∈ rest → (score b <= score a)%Z.
Proof.
  split.
  - intros path n.
    destruct (ranked_prefix score (produced w path query) n) as (rest & Hperm & Hrank).
    eexists _, rest. split; [apply search_in_file_eq|]. by split.
  - intros n.
    destruct (ranked_prefix score
                (concat (map (file_snippets w query) (_iter_doc_files w))) n)
      as (rest & Hperm & Hrank).
    eexists _, rest. split; [apply search_docs_internal_eq|]. by split.
Qed.

(** X2: whatever [max_results] is, the aggregate search returns at most three
    snippets per scanned document. *)
Theorem aggregate_bounded_by_documents `{Runtime} w query max_results :
  ∃ out, _search_docs_internal w query max_results = Ok out
    ∧ length out <= 3 * length (_iter_doc_files w).
Proof.
  eexists. split; [apply search_docs_internal_eq|].
  etrans; [apply prefix_length, slice_to_prefix|].
  rewrite sort_reverse_length. apply all_snippets_length.
Qed.

(** X3: asking for fewer results gives the first ones of the longer answer:
    for limits [0 <= n <= m] the result for [n] is a prefix of the result
    for [m], per file and in aggregate. *)
Theorem smaller_limit_gives_prefix `{Runtime} w query n m :
  (0 <= n <= m)%Z →
  (∀ path, ∃ short long,
     _search_in_file w path query n = Ok short
     ∧ _search_in_file w path query m = Ok long
     ∧ short `prefix_of` long)
  ∧ ∃ short long,
      _search_docs_internal w query n = Ok short
      ∧ _search_docs_internal w query m = Ok long
      ∧ short `prefix_of` long.
Proof.
  intros Hnm. split.
  - intros path. eexists _, _.
    split; [apply search_in_file_eq|]. split; [apply search_in_file_eq|].
    by apply slice_to_mono.
  - eexists _, _.
    split; [apply search_docs_internal_eq|]. split; [apply search_docs_internal_eq|].
    by apply slice_to_mono.
Qed.

(** X4: over a corpus of one document, the aggregate search with a limit of
    at least 3 returns what the per-file search of that document returns. *)
Theorem single_document_aggregate `{Runtime} w query path max_results :
  _iter_doc_files w = [path] →
  (3 <= max_results)%Z →
  _search_docs_internal w query max_results = _search_in_file w path query 3.
Proof.
  intros Hfiles Hn.
  rewrite search_docs_internal_eq, Hfiles. simpl. rewrite app_nil_r.
  rewrite (sort_reverse_of_sorted score) by apply file_snippets_sorted.
  rewrite slice_to_all.
  - unfold file_snippets. by rewrite search_in_file_eq.
  - pose proof (file_snippets_length w query path). lia.
Qed.

(** X5: the limit is a slice bound on the ranking of the file, the
    snippets it produces in stable descending order of score: the result
    is the ranking without its last snippets, [rest]. For a limit
    [n >= 0] the result holds the first [min n total], none for 0; for a
    negative limit [rest] holds the last [min (-n) total], so that the
    result is all but the [-n] lowest ranked; [total] is the number of
    snippets the file produces. No limit raises. *)
Theorem limit_is_a_slice_bound `{Runtime} w path query n :
  ∃ out rest,
    _search_in_file w path query n = Ok out
    ∧ sort_reverse score (produced w path query) = out ++ rest
    ∧ (∀ a b, a ∈ out → b ∈ rest → (score b <= score a)%Z)
    ∧ Z.of_nat (length out)
      = (if (0 <=? n)%Z then Z.min n (Z.of_nat (length (produced w path query)))
         else Z.max 0 (Z.of_nat (length (produced w path query)) + n))
    ∧ Z.of_nat (length rest)
      = (if (0 <=? n)%Z then Z.max 0 (Z.of_nat (length (produced w path query)) - n)
         else Z.min (- n) (Z.of_nat (length (produced w path query)))).
Proof.
  destruct (slice_to_rest (sort_reverse score (produced w path query)) n)
    as [rest Hrest].
  pose proof (slice_to_length_exact (sort_reverse score (produced w path query)) n)
    as Hlen.
  rewrite sort_reverse_length in Hlen.
  exists (slice_to (sort_reverse score (produced w path query)) n), rest.
  split; [apply search_in_file_eq|]. split; [exact Hrest|]. split; [|split].
  - intros a b Ha Hb.
    pose proof (sort_reverse_sorted score (produced w path query)) as Hsorted.
    rewrite Hrest in Hsorted.
    by apply (StronglySorted_app_1_elem_of _ _ _ a b) in Hsorted.
  - exact Hlen.
  - apply (f_equal length) in Hrest.
    rewrite sort_reverse_length, length_app in Hrest.
    destruct (0 <=? n)%Z; lia.
Qed.

(** ** Trimming, splitting and matching *)

Lemma excerpt_refl (s : pystr) : excerpt s s.
Proof. exists [], []. by rewrite app_nil_r. Qed.

Lemma excerpt_trans (x y z : pystr) : excerpt x y → excerpt y z → excerpt x z.
Proof.
  intros (p1 & q1 & ->) (p2 & q2 & ->).
  exists (p2 ++ p1), (q1 ++ q2). by rewrite <-!(assoc_L (++)).
Qed.

Lemma excerpt_prefix (x s : pystr) : x `prefix_of` s → excerpt x s.
Proof. intros [k ->]. by exists [], k. Qed.

Lemma excerpt_cons (x : pystr) c s : excerpt x s → excerpt x (c :: s).
Proof. intros (p & q & ->). by exists (c :: p), q. Qed.

Lemma excerpt_drop (x s : pystr) k : excerpt x (drop k s) → excerpt x s.
Proof.
  intros (p & q & Hs). exists (take k s ++ p), q.
  by rewrite <-(assoc_L (++)), <-Hs, take_drop.
Qed.

Lemma excerpt_Forall (P : N → Prop) (x s : pystr) :
  excerpt x s → Forall P s → Forall P x.
Proof.
  intros (p & q & ->) Hs.
  by apply Forall_app in Hs as [_ [Hx _]%Forall_app].
Qed.

Section StripFacts.
Context `{Runtime}.

Lemma lstrip_suffix s : ∃ pre, s = pre ++ lstrip s.
Proof.
  induction s as [|c t [pre IH]]; simpl; [by exists []|].
  destruct (isspace c); [|by exists []].
  exists (c :: pre). simpl. by f_equal.
Qed.

Lemma lstrip_head s c rest : lstrip s = c :: rest → isspace c = false.
Proof.
  induction s as [|c' t IH]; simpl; [done|].
  destruct (isspace c') eqn:Hc; [done|]. by intros [= <- _].
Qed.

Lemma lstrip_all_space s : Forall (fun c => isspace c = true) s → lstrip s = [].
Proof. induction 1 as [|c t Hc _ IH]; simpl; [done|]. by rewrite Hc. Qed.

Lemma rstrip_prefix s : rstrip s `prefix_of` s.
Proof.
  unfold rstrip. destruct (lstrip_suffix (reverse s)) as [pre Hpre].
  exists (reverse pre).
  rewrite <-reverse_app, <-Hpre. by rewrite reverse_involutive.
Qed.

Lemma rstrip_last s c : last (rstrip s) = Some c → isspace c = false.
Proof.
  unfold rstrip. rewrite last_reverse. intros [rest Hc]%head_Some.
  by eapply lstrip_head.
Qed.

Lemma strip_excerpt s : excerpt (strip s) s.
Proof.
  unfold strip. destruct (lstrip_suffix s) as [pre Hpre].
  destruct (rstrip_prefix (lstrip s)) as [suf Hsuf].
  exists pre, suf. by rewrite <-Hsuf.
Qed.

Lemma strip_trimmed s : trimmed (strip s).
Proof.
  unfold strip. split.
  - intros c rest Hc. destruct (rstrip_prefix (lstrip s)) as [suf Hsuf].
    rewrite Hc in Hsuf. by eapply lstrip_head.
  - apply rstrip_last.
Qed.

Lemma strip_all_space s : Forall (fun c => isspace c = true) s → strip s = [].
Proof. intros Hs. unfold strip. by rewrite lstrip_all_space. Qed.

Lemma split_blank_from_pieces s : ∀ skip cur p,
  p ∈ split_blank_from skip cur s →
  (∃ x, p = cur ++ x ∧ x `prefix_of` drop skip s) ∨ excerpt p s.
Proof.
  induction s as [|c t IH]; intros skip cur p; simpl.
  - intros ->%list_elem_of_singleton. left. exists []. rewrite app_nil_r.
    split; [done|]. by destruct skip.
  - destruct skip as [|k].
    + destruct (if (c =? 10)%N then blank_tail t else None) as [k|].
      * intros [->|Hp]%elem_of_cons.
        { left. exists []. rewrite app_nil_r. split; [done|]. apply prefix_nil. }
        right. apply excerpt_cons.
        apply IH in Hp as [(x & -> & Hx)|Hp]; [|done].
        by apply (excerpt_drop _ _ k), excerpt_prefix.
      * intros [(x & -> & Hx)|Hp]%IH.
        { left. exists (c :: x). rewrite <-(assoc_L (++)). split; [done|].
          simpl. by apply prefix_cons. }
        right. by apply excerpt_cons.
    + intros [(x & -> & Hx)|Hp]%IH; [left; by exists x|].
      right. by apply excerpt_cons.
Qed.

Lemma re_split_blank_excerpt s p : p ∈ re_split_blank s → excerpt p s.
Proof.
  intros [(x & -> & Hx)|Hp]%split_blank_from_pieces; [|done].
  by apply excerpt_prefix.
Qed.


End StripFacts.

Lemma sum_nonneg (l : list Z) : Forall (fun x => (0 <= x)%Z) l → (0 <= sum l)%Z.
Proof.
  induction 1 as [|x l Hx _ IH]; simpl; [done|].
  change (foldr Z.add 0%Z l) with (sum l). lia.
Qed.

Lemma sum_nonneg_pos (l : list Z) :
  Forall (fun x => (0 <= x)%Z) l → ((0 < sum l)%Z ↔ ∃ x, x ∈ l ∧ (0 < x)%Z).
Proof.
  induction 1 as [|x l Hx Hl IH]; simpl.
  - split; [lia|]. by intros (x & ?%elem_of_nil & _).
  - pose proof (sum_nonneg l Hl) as Hsum.
    change (foldr Z.add 0%Z l) with (sum l). split.
    + intros Hpos. destruct (decide (0 < x)%Z) as [|Hzero].
      * exists x. split; [apply list_elem_of_here|done].
      * destruct IH as [IH _]. destruct IH as (y & Hy & Hpos'); [lia|].
        exists y. split; [by apply list_elem_of_further|done].
    + intros (y & [->|Hy]%elem_of_cons & Hpos); [lia|].
      assert (0 < sum l)%Z by (apply IH; eauto). lia.
Qed.

Lemma count_pos_iff (s sub : pystr) :
  sub ≠ [] → ((0 < count s sub)%Z ↔ ∃ i, occurs_at sub s i).
Proof.
  intros Hsub.
  destruct (count_max_nonoverlapping s sub Hsub) as (n & [(offs & Hoffs & Hlen) Hmax] & ->).
  split.
  - intros Hpos. destruct offs as [|i offs]; [simpl in Hlen; lia|].
    exists i. destruct Hoffs as [Hocc _]. by apply Forall_cons in Hocc as [? _].
  - intros [i Hi].
    assert (length [i] <= n) by (apply Hmax; split; repeat constructor; done).
    simpl in *. lia.
Qed.

Section MatchFacts.
Context `{Runtime}.

Lemma simple_score_pos_iff text query :
  (0 < _simple_score text query)%Z ↔ mentions query text.
Proof.
  rewrite simple_score_tokens. unfold score_over, mentions.
  rewrite sum_nonneg_pos.
  - split.
    + intros (x & (tok & -> & Htok)%list_elem_of_fmap & Hpos).
      apply count_pos_iff in Hpos as [i Hi]; [by exists tok, i|].
      pose proof (query_tokens_nonempty query) as Hne.
      rewrite Forall_forall in Hne. by apply Hne.
    + intros (tok & i & Htok & Hi). exists (count (lower text) tok). split.
      * apply list_elem_of_fmap. eauto.
      * apply count_pos_iff; [|by exists i].
        pose proof (query_tokens_nonempty query) as Hne.
        rewrite Forall_forall in Hne. by apply Hne.
  - apply Forall_fmap, Forall_forall. intros tok _. apply count_nonneg.
Qed.

Lemma scan_paragraph_is_Some path query raw :
  is_Some (scan_paragraph path query raw)
  ↔ strip raw ≠ [] ∧ mentions query (strip raw).
Proof.
  rewrite <-simple_score_pos_iff. split.
  - intros [s Hs]. apply scan_paragraph_some in Hs as (? & _ & <- & ? & _). done.
  - intros [Hne Hpos]. unfold scan_paragraph.
    rewrite bool_decide_false by done.
    destruct (Z.leb_spec (_simple_score (strip raw) query) 0); [lia|]. by eexists.
Qed.

Lemma slice_to_is_nil {A} (l : list A) n : (0 < n)%Z → slice_to l n = [] ↔ l = [].
Proof.
  intros Hn. split; [|intros ->; apply slice_to_nil].
  intros Hnil. apply nil_length_inv.
  pose proof (slice_to_length_exact l n) as Hlen. rewrite Hnil in Hlen.
  destruct (Z.leb_spec 0 n); simpl in Hlen; lia.
Qed.

Lemma sort_reverse_is_nil {A} (key : A → Z) l : sort_reverse key l = [] ↔ l = [].
Proof.
  split; [|by intros ->]. intros Hnil. apply Permutation_nil_r.
  by rewrite <-Hnil, sort_reverse_perm.
Qed.

Lemma produced_readable w path query content :
  read_text w path Ignore = Ok content →
  produced w path query = omap (scan_paragraph path query) (re_split_blank content).
Proof. unfold produced. by intros ->. Qed.
End MatchFacts.

(** X6: a readable document yields a result, for a positive limit, exactly
    when one of its paragraphs, trimmed, is not empty and contains some
    token of the query as a substring of its lowercased text. *)
Theorem document_matches_iff_token_occurs `{Runtime} w path query n content :
  read_text w path Ignore = Ok content →
  (0 < n)%Z →
  _search_in_file w path query n ≠ Ok []
  ↔ ∃ raw, raw ∈ re_split_blank content
      ∧ strip raw ≠ [] ∧ mentions query (strip raw).
Proof.
  intros Hread Hn. rewrite search_in_file_eq, (produced_readable _ _ _ _ Hread).
  split.
  - intros Hout.
    destruct (omap (scan_paragraph path query) (re_split_blank content))
      as [|s l] eqn:Hprod; [exfalso; apply Hout; simpl; by rewrite slice_to_nil|].
    assert (s ∈ omap (scan_paragraph path query) (re_split_blank content)) as Hs
      by (rewrite Hprod; apply list_elem_of_here).
    apply list_elem_of_omap in Hs as (raw & Hraw & Hs).
    exists raw. split; [done|]. eapply (proj1 (scan_paragraph_is_Some _ _ _)). by eexists.
  - intros (raw & Hraw & Hmatch) [= Hnil].
    apply slice_to_is_nil in Hnil; [|done]. apply sort_reverse_is_nil in Hnil.
    apply (proj2 (scan_paragraph_is_Some path query raw)) in Hmatch as [s Hs].
    assert (s ∈ omap (scan_paragraph path query) (re_split_blank content)) as Hin
      by (apply list_elem_of_omap; eauto).
    rewrite Hnil in Hin. by apply elem_of_nil in Hin.
Qed.

Lemma omap_all_None {A B} (f : A → option B) (l : list A) :
  Forall (fun x => f x = None) l → omap f l = [].
Proof. induction 1 as [|x l Hx _ IH]; [done|]. cbn. rewrite Hx. exact IH. Qed.




(** X8: a document that holds nothing but whitespace, the empty document
    included, yields no snippet for any query and any limit. *)
Theorem blank_document_yields_nothing `{Runtime} w path query n content :
  read_text w path Ignore = Ok content →
  Forall (fun c => isspace c = true) content →
  _search_in_file w path query n = Ok [].
Proof.
  intros Hread Hblank.
  rewrite search_in_file_eq, (produced_readable _ _ _ _ Hread).
  assert (omap (scan_paragraph path query) (re_split_blank content) = []) as ->;
    [|simpl; by rewrite slice_to_nil].
  apply omap_all_None, Forall_forall. intros raw Hraw%re_split_blank_excerpt.
  unfold scan_paragraph. rewrite strip_all_space; [done|].
  by eapply excerpt_Forall.
Qed.

Lemma source_paragraph_excerpt `{Runtime} w path query s para :
  source_paragraph w path query s para →
  ∃ content, read_text w path Ignore = Ok content ∧ excerpt para content.
Proof.
  intros (content & raw & Hread & Hraw & <- & _). exists content. split; [done|].
  eapply excerpt_trans; [apply strip_excerpt|]. by apply re_split_blank_excerpt.
Qed.

(** X9: every snippet quotes its document: its text is a contiguous excerpt
    of the decoded content of at most 600 characters, followed by the
    marker when the paragraph was cut. *)
Theorem snippets_quote_the_document `{Runtime} w path query max_snippets :
  ∃ out, _search_in_file w path query max_snippets = Ok out
    ∧ Forall (fun s =>
        ∃ content body,
          read_text w path Ignore = Ok content
          ∧ excerpt body content
          ∧ length body <= 600
          ∧ (snippet s = body ∨ snippet s = body ++ marker)) out.
Proof.
  eexists. split; [apply search_in_file_eq|].
  apply Forall_forall. intros s [para Hpara]%search_in_file_sources.
  destruct (source_paragraph_excerpt _ _ _ _ _ Hpara) as (content & Hread & Hex).
  apply source_paragraph_score in Hpara as (_ & _ & _ & _ & ->).
  exists content. unfold truncated, len.
  destruct (Z.ltb_spec 600 (Z.of_nat (length para))).
  - exists (take 600 para). split; [done|]. split; [|split; [|by right]].
    + eapply excerpt_trans; [|done]. apply excerpt_prefix, prefix_take.
    + rewrite length_take. lia.
  - exists para. split; [done|]. split; [done|]. split; [lia|by left].
Qed.

(** X10: no snippet text is empty or begins with whitespace, and a text that
    was not cut (at most 600 characters) does not end with whitespace. *)
Theorem snippet_text_is_trimmed `{Runtime} w path query max_snippets :
  ∃ out, _search_in_file w path query max_snippets = Ok out
    ∧ Forall (fun s =>
        (∃ c rest, snippet s = c :: rest ∧ isspace c = false)
        ∧ (length (snippet s) <= 600 → trimmed (snippet s))) out.
Proof.
  eexists. split; [apply search_in_file_eq|].
  apply Forall_forall. intros s [para Hpara]%search_in_file_sources.
  assert (trimmed para) as Htrim.
  { destruct Hpara as (_ & raw & _ & _ & <- & _). apply strip_trimmed. }
  apply source_paragraph_score in Hpara as (Hne & _ & _ & _ & ->).
  destruct para as [|c rest]; [done|].
  assert (isspace c = false) as Hc by (by eapply (proj1 Htrim)).
  unfold truncated, len.
  destruct (Z.ltb_spec 600 (Z.of_nat (length (c :: rest)))) as [Hlong|Hshort].
  - split; [by eexists _, _|].
    rewrite length_app, length_take. change (length marker) with 3.
    intros Hlen. lia.
  - split; [by eexists _, _|done].
Qed.

(** ** The scanner *)

(** X11: the scanner returns documents only: every path it returns lies
    below the documentation root, at any depth, is one the walk of the
    root yields, is a regular file, and has one of the suffixes [.md],
    [.rst], [.txt] once lowercased; the paths come in the order of the
    walk. *)
Theorem scanner_returns_documents_only `{Runtime} w :
  _iter_doc_files w `sublist_of` rglob w (_get_docs_dir w)
  ∧ ∀ p, p ∈ _iter_doc_files w →
      below (_get_docs_dir w) p
      ∧ p ∈ rglob w (_get_docs_dir w)
      ∧ is_file w p = true
      ∧ lower (suffix p) ∈ exts.
Proof.
  split.
  - unfold _iter_doc_files.
    destruct (negb _ || negb _); [apply sublist_nil_l|apply sublist_filter].
  - intros p Hp. split; [by apply iter_doc_files_below|].
    unfold _iter_doc_files in Hp.
    destruct (negb _ || negb _); [by apply elem_of_nil in Hp|].
    apply list_elem_of_filter in Hp as [Hp Hwalk].
    apply andb_prop_elim in Hp as [Hfile Hext].
    split; [done|].
    split; [by apply Is_true_eq_true|by apply bool_decide_unpack in Hext].
Qed.

(** ** The search and answer tools *)

(** X12: the answer tool uses what the search tool returns: when the
    aggregate search returns snippets for a query and a limit, both
    tools, called with them, return a result and report no error;
    [results] of the one and [used_snippets] of the other both hold those
    snippets, in order, and [answer] is null exactly when there is
    none. *)
Theorem answer_uses_what_search_returns `{Runtime} w query n out :
  _search_docs_internal w query n = Ok out →
  ∃ log1 r1 log2 r2,
    search_docs w query n = (log1, Ok r1)
    ∧ answer_from_docs w query n = (log2, Ok r2)
    ∧ Forall (fun e => ¬ is_ctx_error e) (log1 ++ log2)
    ∧ field "results" r1 = Some (JList (map snippet_json out))
    ∧ field "used_snippets" r2 = Some (JList (map snippet_json out))
    ∧ (out = [] ↔ field "answer" r2 = Some JNone).
Proof.
  intros Hout. unfold search_docs, answer_from_docs. rewrite Hout.
  case_bool_decide as Hnil.
  - eexists _, _, _, _.
    split; [reflexivity|]. split; [reflexivity|].
    split; [repeat constructor; by intros ?|].
    split; [done|]. by rewrite Hnil.
  - eexists _, _, _, _.
    split; [reflexivity|]. split; [reflexivity|].
    split; [repeat constructor; by intros ?|].
    split; [done|]. split; [done|]. split; [done|]. by intros ?.
Qed.

(** ** [require_env] *)

Import Utils.

(** X13: [require_env] returns the value of a variable exactly when the
    variable is set to a non-empty value; a variable that is unset or set
    to the empty string raises [ValueError] with the message that names it. *)
Theorem require_env_needs_a_nonempty_value (environ : Environ) name :
  (∀ value,
     require_env environ name = Returns value
     ↔ environ !! name = Some value ∧ value ≠ [])
  ∧ (require_env environ name = RaisesValueError (missing_message name)
     ↔ environ !! name = None ∨ environ !! name = Some []).
Proof.
  unfold require_env. split.
  - intros value. destruct (environ !! name) as [v|].
    + case_bool_decide as Hv.
      * split; [by intros [= <-]|by intros [[= ->] _]].
      * split; [done|]. intros [[= ->] Hne]. by destruct Hv.
    + split; [done|by intros [? _]].
  - destruct (environ !! name) as [v|].
    + case_bool_decide as Hv.
      * split; [done|]. by intros [?|[= ->]].
      * split; [|done]. intros _. right. f_equal.
        destruct v; [done|]. by destruct Hv.
    + split; [by left|done].
Qed.

(** X14: setting a variable to a non-empty value makes [require_env] return
    it; setting it to the empty string is the same as removing it; and
    setting any other variable changes nothing. *)
Theorem require_env_after_update (environ : Environ) name other value :
  (value ≠ [] → require_env (<[name := value]> environ) name = Returns value)
  ∧ require_env (<[name := []]> environ) name
    = require_env (delete name environ) name
  ∧ (other ≠ name →
     require_env (<[other := value]> environ) name = require_env environ name
     ∧ require_env (delete other environ) name = require_env environ name).
Proof.
  unfold require_env. split; [|split].
  - intros Hvalue. rewrite lookup_insert_eq. by rewrite bool_decide_true.
  - by rewrite lookup_insert_eq, lookup_delete_eq.
  - intros Hother. by rewrite lookup_insert_ne, lookup_delete_ne.
Qed.

(** ** [extract_sse_json] *)

Import ClientTest.

Lemma splitlines_from_pieces s :
  (∀ cur p, p ∈ splitlines_from cur s →
     (∃ x, p = cur ++ x ∧ x `prefix_of` s) ∨ excerpt p s)
  ∧ (∀ cur p, p ∈ splitlines_from cur (tail s) →
     (∃ x, p = cur ++ x ∧ x `prefix_of` tail s) ∨ excerpt p (tail s)).
Proof.
  assert (∀ cur p : pystr, p ∈ flush_line cur →
            ∀ s : pystr, (∃ x, p = cur ++ x ∧ x `prefix_of` s) ∨ excerpt p s)
    as Hflush.
  { intros cur p Hp s'. left. exists []. rewrite app_nil_r.
    split; [|apply prefix_nil].
    destruct cur; [by apply elem_of_nil in Hp|].
    by apply list_elem_of_singleton in Hp. }
  assert (∀ (cur p : pystr) c (t : pystr),
            ((∃ x, p = [] ++ x ∧ x `prefix_of` t) ∨ excerpt p t) →
            (∃ x, p = cur ++ x ∧ x `prefix_of` c :: t) ∨ excerpt p (c :: t))
    as Hfresh.
  { intros cur p c t [(x & -> & Hx)|Hp]; right; apply excerpt_cons;
      [by apply excerpt_prefix|done]. }
  assert (∀ (cur : pystr) c (t : pystr),
            (∃ x, cur = cur ++ x ∧ x `prefix_of` c :: t) ∨ excerpt cur (c :: t))
    as Hcur.
  { intros cur c t. left. exists []. rewrite app_nil_r. split; [done|apply prefix_nil]. }
  induction s as [|c t [IHt IHtail]]; [split; intros cur p Hp; by apply Hflush|].
  split; [|exact IHt].
  intros cur p. simpl.
  destruct (c =? 13)%N.
  - destruct t as [|c' t'].
    + intros ->%list_elem_of_singleton. apply Hcur.
    + destruct (c' =? 10)%N.
      * intros [->|Hp]%elem_of_cons; [apply Hcur|].
        apply Hfresh. simpl in IHtail. apply IHtail in Hp as [(x & -> & Hx)|Hp];
          right; apply excerpt_cons; [by apply excerpt_prefix|done].
      * intros [->|Hp]%elem_of_cons; [apply Hcur|]. by apply Hfresh, IHt.
  - destruct (is_linebreak c).
    + intros [->|Hp]%elem_of_cons; [apply Hcur|]. by apply Hfresh, IHt.
    + intros [(x & -> & Hx)|Hp]%IHt.
      * left. exists (c :: x). rewrite <-(assoc_L (++)). split; [done|].
        by apply prefix_cons.
      * right. by apply excerpt_cons.
Qed.

Lemma splitlines_excerpt s line : line ∈ splitlines s → excerpt line s.
Proof.
  intros [(x & -> & Hx)|Hp]%(proj1 (splitlines_from_pieces s)); [|done].
  by apply excerpt_prefix.
Qed.

Section ExtractFacts.
Context `{Runtime}.

Lemma extract_step_payload acc line :
  extract_step acc line
  = match data_payload line with
    | Some x => Some x
    | None => acc
    end.
Proof.
  unfold data_payload, extract_step.
  destruct (startswith _ _); [|done]. by case_bool_decide.
Qed.

Lemma foldl_extract_step lines : ∀ acc,
  foldl extract_step acc lines
  = match last (omap data_payload lines) with
    | Some x => Some x
    | None => acc
    end.
Proof.
  induction lines as [|line lines IH]; intros acc; [done|].
  cbn [foldl]. rewrite IH, extract_step_payload. cbn [omap list_omap].
  destruct (data_payload line) as [x|]; [|done].
  rewrite last_cons. by destruct (last (omap data_payload lines)).
Qed.

Lemma data_payload_some line x :
  data_payload line = Some x → x ≠ [] ∧ trimmed x ∧ excerpt x line.
Proof.
  unfold data_payload, extract_step, removeprefix.
  destruct (startswith _ _); [|done]. case_bool_decide as Hx; [|done].
  intros [= <-]. split; [done|]. split; [apply strip_trimmed|].
  eapply excerpt_trans; [apply strip_excerpt|].
  eapply excerpt_trans; [|apply strip_excerpt].
  exists (take (length (py "data:")) (strip line)), [].
  by rewrite app_nil_r, take_drop.
Qed.

End ExtractFacts.

(** X15: [extract_sse_json] returns the payload of the last line that carries
    one, and nothing when no line does; a payload returned is not empty,
    has no whitespace at either end, and is a contiguous excerpt of the
    raw text. *)
Theorem extract_sse_json_takes_last_payload `{Runtime} raw :
  extract_sse_json raw = last (omap data_payload (splitlines raw))
  ∧ ∀ x, extract_sse_json raw = Some x →
      x ≠ [] ∧ trimmed x ∧ excerpt x raw.
Proof.
  assert (extract_sse_json raw = last (omap data_payload (splitlines raw))) as Heq.
  { unfold extract_sse_json. rewrite foldl_extract_step.
    by destruct (last (omap data_payload (splitlines raw))). }
  split; [done|]. intros x Hx. rewrite Heq in Hx.
  apply last_Some_elem_of, list_elem_of_omap in Hx as (line & Hline & Hx).
  apply data_payload_some in Hx as (Hne & Htrim & Hex).
  split; [done|]. split; [done|].
  eapply excerpt_trans; [done|]. by apply splitlines_excerpt.
Qed.

(** ** Search results and the listing *)

(** X16: every snippet of the aggregate search comes from a paragraph of a
    scanned document: its [file] is the path of that document as a
    string, its text is the paragraph, cut if longer than 600 characters,
    and its score is the sum of the token counts in the whole paragraph. *)
Theorem aggregate_snippets_come_from_scanned_documents `{Runtime} w query n :
  ∃ out, _search_docs_internal w query n = Ok out
    ∧ Forall (fun s =>
        ∃ path para,
          path ∈ _iter_doc_files w
          ∧ source_paragraph w path query s para
          ∧ file s = str_path path
          ∧ snippet s = truncated para
          ∧ score s = score_over (query_tokens query) para) out.
Proof.
  eexists. split; [apply search_docs_internal_eq|].
  apply Forall_forall. intros s (path & para & Hpath & Hpara)%search_docs_sources.
  exists path, para. split; [done|]. split; [done|].
  apply source_paragraph_score in Hpara as (_ & ? & -> & _ & ?).
  by rewrite simple_score_tokens.
Qed.

Lemma list_docs_files `{Runtime} w :
  ∃ r, list_docs w = ([], Ok r)
    ∧ field "files" r
      = Some (JList (map (fun p => JStr (str_path p)) (_iter_doc_files w))).
Proof.
  unfold list_docs.
  destruct (relative_names (_get_docs_dir w) (_iter_doc_files w))
    as (rels & Hmap & _).
  { apply Forall_forall. intros p. apply iter_doc_files_below. }
  case_bool_decide; [|rewrite Hmap]; by eexists.
Qed.

(** X17: the search and the listing name documents alike: the [file] of every
    snippet the aggregate search returns is one of the [files] the listing
    tool reports. *)
Theorem search_results_name_listed_files `{Runtime} w query n :
  ∃ out r files,
    _search_docs_internal w query n = Ok out
    ∧ list_docs w = ([], Ok r)
    ∧ field "files" r = Some (JList files)
    ∧ Forall (fun s => JStr (file s) ∈ files) out.
Proof.
  destruct (list_docs_files w) as (r & Hrun & Hfiles).
  eexists _, r, _. split; [apply search_docs_internal_eq|].
  split; [done|]. split; [done|].
  apply Forall_forall. intros s (path & para & Hpath & Hpara)%search_docs_sources.
  apply source_paragraph_score in Hpara as (_ & -> & _).
  apply list_elem_of_fmap. by exists path.
Qed.

(** ** Line ends and blank lines in snippets *)

Lemma universal_newlines_no_cr s :
  Forall (fun c => c ≠ 13%N) (universal_newlines s)
  ∧ Forall (fun c => c ≠ 13%N) (universal_newlines (tail s)).
Proof.
  induction s as [|c t [IHt IHtail]]; [by split; constructor|].
  split; [|exact IHt]. simpl.
  destruct (N.eqb_spec c 13) as [->|Hc].
  - destruct t as [|c' t']; [by repeat constructor|].
    destruct (c' =? 10)%N; constructor; done.
  - by constructor.
Qed.

Lemma read_text_no_cr w path errors content :
  read_text w path errors = Ok content → Forall (fun c => c ≠ 13%N) content.
Proof.
  unfold read_text.
  destruct (lookup w path) as [[[|data]|entries]|]; try done.
  destruct (utf8_decode errors data) as [text|]; [|done].
  intros [= <-]. apply universal_newlines_no_cr.
Qed.

Lemma truncated_Forall `{Runtime} (P : N → Prop) para :
  Forall P para → Forall P marker → Forall P (truncated para).
Proof.
  intros Hpara Hmarker. unfold truncated.
  destruct (600 <? len para)%Z; [|done].
  apply Forall_app. split; [by apply Forall_take|done].
Qed.

(** X18: no snippet text holds a carriage return: a document is read with its
    line ends normalised to line feeds. *)
Theorem snippets_hold_no_carriage_return `{Runtime} w path query max_snippets :
  ∃ out, _search_in_file w path query max_snippets = Ok out
    ∧ Forall (fun s => 13%N ∉ snippet s) out.
Proof.
  eexists. split; [apply search_in_file_eq|].
  apply Forall_forall. intros s [para Hpara]%search_in_file_sources.
  destruct (source_paragraph_excerpt _ _ _ _ _ Hpara) as (content & Hread & Hex).
  apply source_paragraph_score in Hpara as (_ & _ & _ & _ & ->).
  assert (Forall (fun c => c ≠ 13%N) (truncated para)) as Hall.
  { apply truncated_Forall.
    - eapply excerpt_Forall; [done|]. by eapply read_text_no_cr.
    - vm_compute. by repeat constructor. }
  rewrite Forall_forall in Hall. intros Hcr. by apply (Hall _ Hcr).
Qed.

Section BlankLines.
Context `{Runtime}.

Lemma blank_tail_blank mid post :
  Forall (fun c => isspace c = true) mid →
  is_Some (blank_tail (mid ++ 10%N :: post)).
Proof.
  induction 1 as [|c mid Hc _ [k IH]]; simpl.
  - destruct (if isspace 10 then blank_tail post else None); by eexists.
  - rewrite Hc, IH. by eexists.
Qed.

Lemma clean_no_blank_line p rest : clean p rest → ¬ has_blank_line p.
Proof.
  intros Hclean (pre & mid & post & -> & Hmid).
  specialize (Hclean pre (mid ++ 10%N :: post) eq_refl).
  rewrite <-(assoc_L (++)) in Hclean. simpl in Hclean.
  destruct (blank_tail_blank mid (post ++ rest) Hmid) as [k Hk]. congruence.
Qed.

Lemma clean_nil rest : clean [] rest.
Proof. intros [|? ?] p2; discriminate. Qed.

Lemma clean_cons c x rest :
  (c = 10%N → blank_tail (x ++ rest) = None) → clean x rest → clean (c :: x) rest.
Proof.
  intros Hc Hx [|c' p1] p2; simpl.
  - intros [= -> ->]. by apply Hc.
  - intros [= -> ->]. by apply (Hx p1 p2).
Qed.

Lemma split_blank_from_clean s : ∀ skip cur p,
  p ∈ split_blank_from skip cur s →
  (∃ x rest, p = cur ++ x ∧ drop skip s = x ++ rest ∧ clean x rest)
  ∨ ∃ rest, clean p rest.
Proof.
  induction s as [|c t IH]; intros skip cur p; simpl.
  - intros ->%list_elem_of_singleton. left. exists [], [].
    rewrite app_nil_r, drop_nil. split; [done|]. split; [done|apply clean_nil].
  - destruct skip as [|k].
    + destruct (if (c =? 10)%N then blank_tail t else None) as [k|] eqn:Hsep.
      * intros [->|Hp]%elem_of_cons.
        { left. exists [], (c :: t). rewrite app_nil_r.
          split; [done|]. split; [done|apply clean_nil]. }
        right. apply IH in Hp as [(x & rest & -> & _ & Hx)|Hp]; [by exists rest|done].
      * intros [(x & rest & -> & Ht & Hx)|Hp]%IH; [|by right].
        left. exists (c :: x), rest. rewrite <-(assoc_L (++)).
        split; [done|]. rewrite drop_0 in Ht. split; [by rewrite drop_0, Ht|].
        apply clean_cons; [|done]. intros ->. by rewrite <-Ht.
    + intros [(x & rest & -> & Ht & Hx)|Hp]%IH; [|by right].
      left. by exists x, rest.
Qed.

Lemma re_split_blank_no_blank_line s p :
  p ∈ re_split_blank s → ¬ has_blank_line p.
Proof.
  intros [(x & rest & -> & _ & Hx)|[rest Hp]]%split_blank_from_clean;
    by eapply clean_no_blank_line.
Qed.

Lemma has_blank_line_excerpt x s : excerpt x s → has_blank_line x → has_blank_line s.
Proof.
  intros (p & q & ->) (pre & mid & post & -> & Hmid).
  exists (p ++ pre), mid, (post ++ q). split; [|done].
  by rewrite <-!(assoc_L (++)).
Qed.

Lemma has_blank_line_before_marker body :
  has_blank_line (body ++ marker) → has_blank_line body.
Proof.
  intros (pre & mid & post & Heq & Hmid).
  replace (pre ++ [10%N] ++ mid ++ [10%N] ++ post)
    with ((pre ++ [10%N] ++ mid ++ [10%N]) ++ post) in Heq
    by (by rewrite <-!(assoc_L (++))).
  apply app_eq_inv in Heq as [(k & Hbody & _)|(k & Hk & Hmarker)].
  - exists pre, mid, k. split; [|done]. rewrite Hbody. by simplify_list_eq.
  - destruct k as [|c k _] using rev_ind.
    + rewrite app_nil_r in Hk. exists pre, mid, []. split; [|done].
      rewrite <-Hk. by simplify_list_eq.
    + exfalso.
      assert (c = 10%N) as ->.
      { rewrite !(assoc_L (++)) in Hk. by apply app_inj_tail in Hk as [_ ->]. }
      assert (10%N ∈ marker) as Hin.
      { rewrite Hmarker. apply elem_of_app. left. apply elem_of_app. right.
        apply list_elem_of_here. }
      revert Hin. refine (bool_decide_unpack _ _). vm_compute. exact I.
Qed.

End BlankLines.

(** X19: no snippet spans a blank line: its text never holds two line feeds
    with nothing but whitespace between them. *)
Theorem snippets_span_no_blank_line `{Runtime} w path query max_snippets :
  ∃ out, _search_in_file w path query max_snippets = Ok out
    ∧ Forall (fun s => ¬ has_blank_line (snippet s)) out.
Proof.
  eexists. split; [apply search_in_file_eq|].
  apply Forall_forall. intros s [para Hpara]%search_in_file_sources.
  assert (¬ has_blank_line para) as Hpara_clean.
  { destruct Hpara as (content & raw & _ & Hraw & <- & _).
    intros Hblank. apply (re_split_blank_no_blank_line _ _ Hraw).
    eapply has_blank_line_excerpt; [apply strip_excerpt|done]. }
  apply source_paragraph_score in Hpara as (_ & _ & _ & _ & ->).
  unfold truncated. destruct (600 <? len para)%Z; [|done].
  intros Hblank%has_blank_line_before_marker. apply Hpara_clean.
  eapply has_blank_line_excerpt; [|done]. apply excerpt_prefix, prefix_take.
Qed.

(** ** The properties on the sample corpora

    From here on the tables are those of the ASCII range. *)

Import Demo.

#[local] Existing Instance ascii_runtime.

(** C9 as stated fails on the structured half: for the root
    [/srv/app/docs] holding [a.md], [files] holds [/srv/app/docs/a.md],
    which is not the name of the document relative to the root. *)
Lemma structured_files_hold_full_paths :
  ∃ r, list_docs w_single = ([], Ok r)
    ∧ _iter_doc_files w_single = [in_docs "a.md"]
    ∧ relative_name (_get_docs_dir w_single) (in_docs "a.md") (py "a.md")
    ∧ field "files" r = Some (JList [JStr (py "/srv/app/docs/a.md")])
    ∧ ¬ relative_name (_get_docs_dir w_single) (in_docs "a.md")
          (py "/srv/app/docs/a.md").
Proof.
  eexists. split; [vm_compute; reflexivity|].
  split; [vm_compute; reflexivity|].
  split; [exists [py "a.md"]; by vm_compute|].
  split; [vm_compute; reflexivity|].
  intros (rel & _ & Hp & Hr).
  change (in_docs "a.md") with (_get_docs_dir w_single ++ [py "a.md"]) in Hp.
  apply app_inv_head in Hp as <-. vm_compute in Hr. discriminate.
Qed.

Ltac by_compute := vm_compute; reflexivity.

(** The source paragraph of a snippet, found by running the scan. *)
Ltac find_source content raw :=
  exists content, raw;
  split; [by_compute|];
  split; [refine (bool_decide_unpack _ _); vm_compute; exact I|];
  split; by_compute.

(** C1 as stated fails when the query repeats a token: for the paragraph
    [error timeout error] and the query [error error] the score is 4,
    while the sum over the set of tokens is 2. *)
Lemma repeated_token_counts_twice :
  ∃ s, _search_in_file w_single (in_docs "a.md") (py "error error") 3 = Ok [s]
    ∧ source_paragraph w_single (in_docs "a.md") (py "error error") s
        (py "error timeout error")
    ∧ score s = 4%Z
    ∧ token_set (py "error error") = [py "error"]
    ∧ score_over (token_set (py "error error")) (py "error timeout error") = 2%Z
    ∧ score s ≠ score_over (token_set (py "error error")) (py "error timeout error").
Proof.
  eexists. split; [by_compute|].
  split; [find_source (py "error timeout error") (py "error timeout error")|].
  split; [by_compute|]. split; [by_compute|]. split; [by_compute|].
  vm_compute. discriminate.
Qed.

(** C1, amended, on the same input. *)
Lemma snippet_score_on_single_document :
  ∃ s, _search_in_file w_single (in_docs "a.md") (py "error error") 3 = Ok [s]
    ∧ source_paragraph w_single (in_docs "a.md") (py "error error") s
        (py "error timeout error")
    ∧ score s
      = score_over (query_tokens (py "error error")) (py "error timeout error").
Proof.
  destruct (snippet_score_sums_over_query_tokens
              w_single (in_docs "a.md") (py "error error") 3%Z) as (out & Hout & Hall).
  vm_compute in Hout. injection Hout as <-.
  eexists. split; [by_compute|].
  assert (source_paragraph w_single (in_docs "a.md") (py "error error")
            {| file := py "/srv/app/docs/a.md"; score := 4;
               snippet := py "error timeout error" |}
            (py "error timeout error")) as Hsrc
    by find_source (py "error timeout error") (py "error timeout error").
  split; [exact Hsrc|].
  refine (proj2 (Hall _ _) _ Hsrc). apply list_elem_of_here.
Defined.

(** C2 on a paragraph of 779 characters: the snippet has 603, its score is
    the 130 of the whole paragraph, not the 100 of the text kept. *)
Lemma long_paragraph_is_cut_after_scoring :
  ∃ s, _search_in_file w_corpus (in_sub "b.TXT") (py "error") 3 = Ok [s]
    ∧ length (snippet s) = 603
    ∧ score s = 130%Z
    ∧ _simple_score (snippet s) (py "error") = 100%Z
    ∧ ∃ para, source_paragraph w_corpus (in_sub "b.TXT") (py "error") s para
        ∧ score s = _simple_score para (py "error")
        ∧ snippet s = take 600 para ++ marker.
Proof.
  destruct (snippet_text_bounded_score_of_whole_paragraph
              w_corpus (in_sub "b.TXT") (py "error") 3%Z) as (out & Hout & Hall & _).
  vm_compute in Hout. injection Hout as <-.
  apply Forall_inv in Hall as (_ & para & Hsrc & Hscore & Hlong & Hshort).
  eexists. split; [by_compute|].
  split; [by_compute|]. split; [by_compute|]. split; [by_compute|].
  exists para. split; [exact Hsrc|]. split; [exact Hscore|].
  apply Hlong. destruct (Z.ltb_spec 600 (len para)) as [|Hle]; [done|].
  apply Hshort in Hle. rewrite <-Hle in Hscore. vm_compute in Hscore. discriminate.
Defined.

(** C3 with a cap of 2 on a corpus that yields 5 snippets. *)
Lemma result_counts_on_corpus :
  (1 <= 2 <= 20)%Z
  ∧ ∃ out, _search_docs_internal w_corpus (py "error") 2 = Ok out
      ∧ (Z.of_nat (length out) <= 2)%Z.
Proof.
  split; [lia|].
  apply (proj2 (result_counts_capped w_corpus (py "error")) 2%Z). lia.
Defined.

(** C4 on the corpus. *)
Lemma ranking_on_corpus :
  ∃ out, _search_docs_internal w_corpus (py "error") 5 = Ok out
    ∧ map score out = [130; 2; 2; 1; 1]%Z
    ∧ StronglySorted by_score_desc out
    ∧ filter (with_score 2) out
      `sublist_of` filter (with_score 2) (produced_all w_corpus (py "error")).
Proof.
  destruct (proj2 (results_sorted_descending_and_stable w_corpus (py "error")) 5%Z)
    as (out & Hout & Hsorted & Hties).
  exists out. split; [exact Hout|]. split; [|split; [exact Hsorted|apply Hties]].
  vm_compute in Hout. injection Hout as <-. by_compute.
Defined.

(** C5 on a document of four paragraphs, one of which has no match. *)
Lemma unmatched_paragraph_is_left_out :
  ∃ out, _search_in_file w_corpus (in_docs "a.md") (py "error") 10 = Ok out
    ∧ length out = 3
    ∧ Forall (fun s => ¬ (score s <= 0)%Z) out.
Proof.
  destruct (proj1 (no_snippet_without_match w_corpus (py "error")) (in_docs "a.md") 10%Z)
    as (out & Hout & Hpos).
  exists out. split; [exact Hout|]. split; [|exact Hpos].
  vm_compute in Hout. injection Hout as <-. by_compute.
Defined.



(** C8 on Scenario C: the query [xyz123] matches nothing. *)
Lemma nothing_found_answer :
  _search_docs_internal w_single (py "xyz123") 5 = Ok []
  ∧ ∃ log r, answer_from_docs w_single (py "xyz123") 5 = (log, Ok r)
      ∧ field "query" r = Some (JStr (py "xyz123"))
      ∧ field "answer" r = Some JNone
      ∧ field "answer" r ≠ Some (JStr [])
      ∧ field "used_snippets" r = Some (JList []).
Proof.
  assert (_search_docs_internal w_single (py "xyz123") 5 = Ok []) as Hnone
    by by_compute.
  split; [exact Hnone|].
  destruct (no_evidence_answer_is_null w_single (py "xyz123") 5%Z [] Hnone)
    as (log & r & Hrun & Hquery & Hempty & _).
  destruct (Hempty eq_refl) as (Hnull & Hnot_empty & Hused).
  exists log, r. repeat split; assumption.
Defined.

(** C9, amended, on the corpus. *)
Lemma listing_of_corpus :
  _iter_doc_files w_corpus ≠ []
  ∧ ∃ r rels,
      list_docs w_corpus = ([], Ok r)
      ∧ Forall2 (relative_name (_get_docs_dir w_corpus)) (_iter_doc_files w_corpus) rels
      ∧ content r
        = [join nl (py "Найдены файлы документации:"
                    :: map (fun rel => py "- " ++ rel) rels)]
      ∧ field "files" r
        = Some (JList (map (fun p => JStr (str_path p)) (_iter_doc_files w_corpus))).
Proof.
  assert (_iter_doc_files w_corpus ≠ []) as Hsome by (vm_compute; discriminate).
  split; [exact Hsome|].
  destruct (list_docs_names_documents w_corpus)
    as (r & Hrun & _ & Hfiles & Htext).
  destruct (Htext Hsome) as (rels & Hrels & Hcontent).
  exists r, rels. repeat split; assumption.
Defined.

(** ** The scenarios of the specification *)

(** Scenario A: one document [a.md] with the paragraph
    [error timeout error]; the query [error] gives one snippet of score 2. *)
Example scenario_single_document :
  _search_docs_internal w_single (py "error") 5
  = Ok [{| file := py "/srv/app/docs/a.md"; score := 2;
           snippet := py "error timeout error" |}].
Proof. by_compute. Qed.

(** Scenario B: no file of a listed extension; the listing reports an
    empty [files] and says so in its text. *)
Example scenario_nothing_to_list :
  list_docs w_no_match
  = ([], Ok {| content :=
                 [py "Каталог документации не найден или пуст: /srv/app/docs"
                  ++ nl
                  ++ py "Создайте папку docs/ и добавьте туда .md / .rst / .txt файлы."];
               structured_content :=
                 Some [("docs_dir"%string, JStr (py "/srv/app/docs"));
                       ("files"%string, JList [])];
               meta := None |}).
Proof. by_compute. Qed.

(** Scenario D: two documents that both score 5 come out in the order
    in which the scan lists them. *)
Example scenario_ties_in_scan_order :
  _search_docs_internal w_ties (py "e") 5
  = Ok [{| file := py "/srv/app/docs/z.md"; score := 5; snippet := py "e e e e e" |};
        {| file := py "/srv/app/docs/a.md"; score := 5; snippet := py "E E E E E" |}].
Proof. by_compute. Qed.

(** ** The further properties on the samples *)

Import Samples.

(** In the corpus, [a.md] has a paragraph that contains [timeout], and no
    paragraph that contains [quota]. *)
Lemma timeout_is_found_in_a_md :
  read_text w_corpus (in_docs "a.md") Ignore
  = Ok (py "error timeout error

Nothing to see

An Error again, terror

one more error")
  ∧ (0 < 3)%Z
  ∧ _search_in_file w_corpus (in_docs "a.md") (py "Timeout") 3 ≠ Ok []
  ∧ ∃ raw, strip raw ≠ [] ∧ mentions (py "Timeout") (strip raw).
Proof.
  assert (read_text w_corpus (in_docs "a.md") Ignore
          = Ok (py "error timeout error

Nothing to see

An Error again, terror

one more error")) as Hread by by_compute.
  split; [exact Hread|]. split; [lia|].
  assert (_search_in_file w_corpus (in_docs "a.md") (py "Timeout") 3 ≠ Ok [])
    as Hfound by (vm_compute; discriminate).
  split; [exact Hfound|].
  destruct (proj1 (document_matches_iff_token_occurs
                     w_corpus (in_docs "a.md") (py "Timeout") 3%Z _ Hread eq_refl)
              Hfound) as (raw & _ & Hne & Hm).
  by exists raw.
Defined.


(** An empty document and one of spaces, tabs and line ends. *)
Lemma blank_documents_yield_nothing :
  (read_text w_blank (in_docs "empty.md") Ignore = Ok []
   ∧ _search_in_file w_blank (in_docs "empty.md") (py "error") 3 = Ok [])
  ∧ (read_text w_blank (in_docs "blank.txt") Ignore = Ok [32; 10; 10; 9; 32; 10]%N
     ∧ Forall (fun c => isspace c = true) [32; 10; 10; 9; 32; 10]%N
     ∧ _search_in_file w_blank (in_docs "blank.txt") (py "error") 3 = Ok []).
Proof.
  assert (read_text w_blank (in_docs "empty.md") Ignore = Ok []) as Hempty
    by by_compute.
  assert (read_text w_blank (in_docs "blank.txt") Ignore
          = Ok [32; 10; 10; 9; 32; 10]%N) as Hblank by by_compute.
  assert (Forall (fun c => isspace c = true) [32; 10; 10; 9; 32; 10]%N) as Hspace
    by (repeat constructor).
  split; [split; [exact Hempty|]|split; [exact Hblank|split; [exact Hspace|]]].
  - exact (blank_document_yields_nothing _ _ (py "error") 3%Z _ Hempty (Forall_nil_2 _)).
  - exact (blank_document_yields_nothing _ _ (py "error") 3%Z _ Hblank Hspace).
Defined.

(** Limits 2 and 4 on the corpus. *)
Lemma two_results_are_the_first_of_four :
  (0 <= 2 <= 4)%Z
  ∧ ∃ short long,
      _search_docs_internal w_corpus (py "error") 2 = Ok short
      ∧ _search_docs_internal w_corpus (py "error") 4 = Ok long
      ∧ short `prefix_of` long
      ∧ length short = 2 ∧ length long = 4.
Proof.
  assert (0 <= 2 <= 4)%Z as Hnm by lia.
  split; [exact Hnm|].
  destruct (proj2 (smaller_limit_gives_prefix w_corpus (py "error") 2%Z 4%Z Hnm))
    as (short & long & Hshort & Hlong & Hprefix).
  exists short, long. split; [exact Hshort|]. split; [exact Hlong|].
  split; [exact Hprefix|].
  vm_compute in Hshort. vm_compute in Hlong.
  injection Hshort as <-. injection Hlong as <-. by split.
Defined.

(** The corpus of one document. *)
Lemma single_document_corpus :
  _iter_doc_files w_single = [in_docs "a.md"]
  ∧ (3 <= 5)%Z
  ∧ _search_docs_internal w_single (py "error") 5
    = _search_in_file w_single (in_docs "a.md") (py "error") 3.
Proof.
  assert (_iter_doc_files w_single = [in_docs "a.md"]) as Hfiles by by_compute.
  assert (3 <= 5)%Z as Hn by lia.
  split; [exact Hfiles|]. split; [exact Hn|].
  exact (single_document_aggregate w_single (py "error") _ 5%Z Hfiles Hn).
Defined.

(** With a limit of 2 on [a.md], whose paragraphs yield three snippets,
    the one left out scores no more than the two returned. *)
Lemma third_snippet_of_a_md_is_outranked :
  ∃ out rest,
    _search_in_file w_corpus (in_docs "a.md") (py "error") 2 = Ok out
    ∧ map score out = [2; 2]%Z
    ∧ length rest = 1
    ∧ ∀ a b, a ∈ out → b ∈ rest → (score b <= score a)%Z.
Proof.
  destruct (proj1 (returned_snippets_outrank_the_rest w_corpus (py "error"))
              (in_docs "a.md") 2%Z) as (out & rest & Hout & Hperm & Hrank).
  exists out, rest. split; [exact Hout|].
  vm_compute in Hout. injection Hout as <-.
  split; [reflexivity|]. split; [|exact Hrank].
  apply Permutation_length in Hperm.
  assert (length (produced w_corpus (in_docs "a.md") (py "error")) = 3) as Hthree
    by by_compute.
  rewrite Hthree in Hperm. simpl in Hperm. lia.
Defined.

(** The three snippets of [a.md] are trimmed. *)
Lemma snippets_of_a_md_are_trimmed :
  ∃ out, _search_in_file w_corpus (in_docs "a.md") (py "error") 3 = Ok out
    ∧ length out = 3
    ∧ Forall (fun s => length (snippet s) <= 600 ∧ trimmed (snippet s)) out.
Proof.
  destruct (snippet_text_is_trimmed w_corpus (in_docs "a.md") (py "error") 3%Z)
    as (out & Hout & Hall).
  exists out. split; [exact Hout|].
  vm_compute in Hout. injection Hout as <-. split; [reflexivity|].
  rewrite Forall_forall in Hall. apply Forall_forall. intros s Hs.
  assert (length (snippet s) <= 600) as Hlen.
  { repeat (apply elem_of_cons in Hs as [->|Hs]);
      [apply Nat.leb_le; by_compute..|by apply elem_of_nil in Hs]. }
  split; [exact Hlen|]. exact (proj2 (Hall s Hs) Hlen).
Defined.

(** On [a.md], whose paragraphs yield three snippets of scores 2, 2 and
    1: the limit -1 leaves out the last of the ranking, the limit 5 none,
    the limit -7 all. *)
Lemma negative_limit_on_a_md :
  (∃ out rest,
     _search_in_file w_corpus (in_docs "a.md") (py "error") (-1) = Ok out
     ∧ sort_reverse score (produced w_corpus (in_docs "a.md") (py "error")) = out ++ rest
     ∧ map score out = [2; 2]%Z ∧ map score rest = [1]%Z)
  ∧ (∃ out,
       _search_in_file w_corpus (in_docs "a.md") (py "error") 5 = Ok out
       ∧ sort_reverse score (produced w_corpus (in_docs "a.md") (py "error")) = out ++ [])
  ∧ _search_in_file w_corpus (in_docs "a.md") (py "error") (-7) = Ok [].
Proof.
  split; [|split].
  - destruct (limit_is_a_slice_bound w_corpus (in_docs "a.md") (py "error") (-1)%Z)
      as (out & rest & Hout & Hrank & _ & _ & _).
    exists out, rest. split; [exact Hout|]. split; [exact Hrank|].
    vm_compute in Hout. injection Hout as <-.
    vm_compute in Hrank. injection Hrank as <-. by split.
  - destruct (limit_is_a_slice_bound w_corpus (in_docs "a.md") (py "error") 5%Z)
      as (out & rest & Hout & Hrank & _ & _ & Hrest).
    assert (rest = []) as ->.
    { apply length_zero_iff_nil.
      assert (length (produced w_corpus (in_docs "a.md") (py "error")) = 3) as Hthree
        by by_compute.
      rewrite Hthree in Hrest. simpl in Hrest. lia. }
    by exists out.
  - destruct (limit_is_a_slice_bound w_corpus (in_docs "a.md") (py "error") (-7)%Z)
      as (out & rest & Hout & _ & _ & Hlen & _).
    assert (out = []) as ->; [|exact Hout].
    apply length_zero_iff_nil.
    assert (length (produced w_corpus (in_docs "a.md") (py "error")) = 3) as Hthree
      by by_compute.
    rewrite Hthree in Hlen. simpl in Hlen. lia.
Defined.

(** The scanner on the corpus: a nested document with an upper-case
    suffix and a document that cannot be read are returned, after the
    entries of the root itself; a Python file is not. *)
Lemma corpus_documents :
  _iter_doc_files w_corpus
  = [in_docs "a.md"; in_docs "locked.md"; in_sub "b.TXT"; in_sub "c.rst"]
  ∧ (below docs_root (in_sub "b.TXT")
     ∧ is_file w_corpus (in_sub "b.TXT") = true
     ∧ lower (suffix (in_sub "b.TXT")) = py ".txt")
  ∧ (is_file w_corpus (in_docs "locked.md") = true
     ∧ read_fails w_corpus (in_docs "locked.md"))
  ∧ in_docs "notes.py" ∉ _iter_doc_files w_corpus.
Proof.
  destruct (scanner_returns_documents_only w_corpus) as [_ Hscan].
  assert (_iter_doc_files w_corpus
          = [in_docs "a.md"; in_docs "locked.md"; in_sub "b.TXT"; in_sub "c.rst"])
    as Hfiles by by_compute.
  split; [exact Hfiles|]. split; [|split].
  - destruct (Hscan (in_sub "b.TXT")) as (Hbelow & _ & Hfile & _).
    { rewrite Hfiles. do 2 apply list_elem_of_further. apply list_elem_of_here. }
    split; [exact Hbelow|]. split; [exact Hfile|by_compute].
  - destruct (Hscan (in_docs "locked.md")) as (_ & _ & Hfile & _).
    { rewrite Hfiles. apply list_elem_of_further, list_elem_of_here. }
    split; [exact Hfile|by_compute].
  - intros (_ & _ & _ & Hext)%Hscan. revert Hext.
    refine (bool_decide_unpack _ _). vm_compute. exact I.
Defined.

(** The repository is set, the token is set but empty, the port is unset. *)
Lemma sample_environment_variables :
  require_env sample_environ (py "GITHUB_REPO") = Returns (py "acme/support")
  ∧ require_env sample_environ (py "GITHUB_TOKEN")
    = RaisesValueError (missing_message (py "GITHUB_TOKEN"))
  ∧ require_env sample_environ (py "PORT")
    = RaisesValueError (missing_message (py "PORT")).
Proof.
  split; [|split].
  - apply (require_env_needs_a_nonempty_value sample_environ (py "GITHUB_REPO")).
    split; [by_compute|done].
  - apply (require_env_needs_a_nonempty_value sample_environ (py "GITHUB_TOKEN")).
    right. by_compute.
  - apply (require_env_needs_a_nonempty_value sample_environ (py "PORT")).
    left. by_compute.
Defined.

(** Setting the token, emptying the repository, and setting the port. *)
Lemma sample_environment_updates :
  py "t0k3n" ≠ []
  ∧ py "PORT" ≠ py "GITHUB_REPO"
  ∧ require_env (<[py "GITHUB_TOKEN" := py "t0k3n"]> sample_environ) (py "GITHUB_TOKEN")
    = Returns (py "t0k3n")
  ∧ require_env (<[py "GITHUB_REPO" := []]> sample_environ) (py "GITHUB_REPO")
    = require_env (delete (py "GITHUB_REPO") sample_environ) (py "GITHUB_REPO")
  ∧ require_env (<[py "PORT" := py "8080"]> sample_environ) (py "GITHUB_REPO")
    = require_env sample_environ (py "GITHUB_REPO").
Proof.
  assert (py "t0k3n" ≠ []) as Hvalue by done.
  assert (py "PORT" ≠ py "GITHUB_REPO") as Hother by done.
  split; [exact Hvalue|]. split; [exact Hother|].
  split; [|split].
  - exact (proj1 (require_env_after_update sample_environ (py "GITHUB_TOKEN")
                    (py "PORT") (py "t0k3n")) Hvalue).
  - exact (proj1 (proj2 (require_env_after_update sample_environ (py "GITHUB_REPO")
                           (py "PORT") (py "8080")))).
  - exact (proj1 (proj2 (proj2 (require_env_after_update sample_environ
                                  (py "GITHUB_REPO") (py "PORT") (py "8080")))
                    Hother)).
Defined.

(** The stream of two events: the payload of the second is returned. *)
Lemma sample_stream_payload :
  extract_sse_json sample_stream = Some (py "{2}")
  ∧ py "{2}" ≠ []
  ∧ trimmed (py "{2}")
  ∧ excerpt (py "{2}") sample_stream.
Proof.
  assert (extract_sse_json sample_stream = Some (py "{2}")) as Hlast by by_compute.
  split; [exact Hlast|].
  exact (proj2 (extract_sse_json_takes_last_payload sample_stream) _ Hlast).
Defined.

(** The query [error] with a limit of 2 on the corpus: both tools hold
    the two best snippets and the answer is a text; the query [xyz123]
    matches nothing: both hold the empty list and the answer is null. *)
Lemma answer_and_search_on_corpus :
  (∃ out log1 r1 log2 r2,
     _search_docs_internal w_corpus (py "error") 2 = Ok out
     ∧ map score out = [130; 2]%Z
     ∧ search_docs w_corpus (py "error") 2 = (log1, Ok r1)
     ∧ answer_from_docs w_corpus (py "error") 2 = (log2, Ok r2)
     ∧ field "results" r1 = Some (JList (map snippet_json out))
     ∧ field "used_snippets" r2 = Some (JList (map snippet_json out))
     ∧ field "answer" r2 ≠ Some JNone)
  ∧ ∃ log1 r1 log2 r2,
      _search_docs_internal w_corpus (py "xyz123") 5 = Ok []
      ∧ search_docs w_corpus (py "xyz123") 5 = (log1, Ok r1)
      ∧ answer_from_docs w_corpus (py "xyz123") 5 = (log2, Ok r2)
      ∧ field "results" r1 = Some (JList [])
      ∧ field "used_snippets" r2 = Some (JList [])
      ∧ field "answer" r2 = Some JNone.
Proof.
  split.
  - assert (∃ out, _search_docs_internal w_corpus (py "error") 2 = Ok out
                   ∧ map score out = [130; 2]%Z) as (out & Hout & Hscores).
    { eexists. split; by_compute. }
    destruct (answer_uses_what_search_returns w_corpus (py "error") 2%Z out Hout)
      as (log1 & r1 & log2 & r2 & Hsearch & Hanswer & _ & Hres & Hused & Hnull).
    exists out, log1, r1, log2, r2.
    split; [exact Hout|]. split; [exact Hscores|].
    split; [exact Hsearch|]. split; [exact Hanswer|].
    split; [exact Hres|]. split; [exact Hused|].
    intros Hnone. apply Hnull in Hnone. rewrite Hnone in Hscores.
    discriminate Hscores.
  - assert (_search_docs_internal w_corpus (py "xyz123") 5 = Ok []) as Hout
      by by_compute.
    destruct (answer_uses_what_search_returns w_corpus (py "xyz123") 5%Z [] Hout)
      as (log1 & r1 & log2 & r2 & Hsearch & Hanswer & _ & Hres & Hused & Hnull).
    exists log1, r1, log2, r2.
    split; [exact Hout|]. split; [exact Hsearch|]. split; [exact Hanswer|].
    split; [exact Hres|]. split; [exact Hused|]. by apply Hnull.
Defined.
